(** * CopySvgTranslate: the translation extractor

    A shallow embedding of [CopySvgTranslate/extraction/extractor.py] and the
    properties of [extract] that the design document states about it.

    The file has two halves.  The first holds the model: Python strings,
    Python dictionaries, the exception that a failed subscript raises, the
    part of the lxml element tree that [extract] reads, and [extract] itself,
    line by line.  The second half holds the theorems. *)

From Stdlib Require Import Ascii String.
From stdpp Require Import base option list strings gmap.

Local Open Scope nat_scope.

(** ** Python strings

    A [str] is a sequence of code points.  The model keeps the code points
    below 256 (Latin-1), one [ascii] each, so that [strip], [lower] and
    [isdigit] are the restrictions of Python's Unicode-aware methods to that
    range.  String literals of this file only hold 7-bit characters; the
    others are written with their decimal code. *)

(** [str.isspace] on one code point: TAB, LF, VT, FF, CR, the four separators
    FS, GS, RS, US, the space, NEL and the no-break space. *)
Definition isspace_char (c : ascii) : bool :=
  let n := nat_of_ascii c in
  ((9 <=? n) && (n <=? 13)) || ((28 <=? n) && (n <=? 32))
  || (n =? 133) || (n =? 160).

(** [str.isdigit] on one code point: the ten decimal digits and the
    superscripts two, three and one. *)
Definition isdigit_char (c : ascii) : bool :=
  let n := nat_of_ascii c in
  ((48 <=? n) && (n <=? 57)) || (n =? 178) || (n =? 179) || (n =? 185).

(** The decimal digits of ASCII alone. *)
Definition is_ascii_digit_char (c : ascii) : bool :=
  let n := nat_of_ascii c in (48 <=? n) && (n <=? 57).

(** [str.lower] on one code point: A-Z, and the capital letters of Latin-1
    (all of 192..222 but the multiplication sign 215). *)
Definition lower_char (c : ascii) : ascii :=
  let n := nat_of_ascii c in
  if ((65 <=? n) && (n <=? 90))
     || ((192 <=? n) && (n <=? 222) && negb (n =? 215))
  then ascii_of_nat (n + 32) else c.

Definition chars (s : string) : list ascii := list_ascii_of_string s.
Definition str (l : list ascii) : string := string_of_list_ascii l.

(** [s.lower()] *)
Definition lower (s : string) : string := str (lower_char <$> chars s).

Fixpoint lstrip_chars (l : list ascii) : list ascii :=
  match l with
  | c :: l' => if isspace_char c then lstrip_chars l' else l
  | [] => []
  end.

(** [s.strip()] *)
Definition strip (s : string) : string :=
  str (rev (lstrip_chars (rev (lstrip_chars (chars s))))).

(** [s.isdigit()]: at least one character, and digits only. *)
Definition isdigit (s : string) : bool :=
  match chars s with
  | [] => false
  | l => forallb isdigit_char l
  end.

Definition is_ascii_digits (s : string) : bool :=
  match chars s with
  | [] => false
  | l => forallb is_ascii_digit_char l
  end.

(** [s[-4:]]: the last four characters, the whole string when it is shorter. *)
Definition last4 (s : string) : string :=
  let l := chars s in str (drop (length l - 4) l).

(** [s[:-4]]: all but the last four characters, empty when it is shorter. *)
Definition but_last4 (s : string) : string :=
  let l := chars s in str (take (length l - 4) l).

Fixpoint before_dash (l : list ascii) : list ascii :=
  match l with
  | c :: l' => if decide (c = "-"%char) then [] else c :: before_dash l'
  | [] => []
  end.

(** [s.split("-")[0]] *)
Definition split_dash_0 (s : string) : string := str (before_dash (chars s)).

(** Truth value of an optional string: [None] and [""] are false.  [truthy]
    gives the string back when it is true. *)
Definition truthy (o : option string) : option string :=
  match o with
  | Some EmptyString | None => None
  | Some s => Some s
  end.

Definition is_truthy (o : option string) : bool :=
  match truthy o with Some _ => true | None => false end.

(** [a or b] *)
Definition py_or (a b : option string) : option string :=
  if is_truthy a then a else b.

(** ** Python dictionaries

    A [dict] keeps its keys in insertion order, and [extract] iterates over
    the phrase index at the end, so the index is an association list with
    one pair per key.  The inner dictionaries (language to text, identifier
    to text) are only read by key or as a whole, and are finite maps. *)

Section odict.
Context {V : Type}.

Definition odict := list (string * V).

(** [d.get(k)] *)
Fixpoint od_get (k : string) (d : odict) : option V :=
  match d with
  | [] => None
  | (k', v) :: d' => if decide (k = k') then Some v else od_get k d'
  end.

(** [k in d] *)
Definition od_contains (k : string) (d : odict) : bool :=
  match od_get k d with Some _ => true | None => false end.

(** [d[k] = v]: an existing key keeps its place, a new one goes last. *)
Fixpoint od_set (k : string) (v : V) (d : odict) : odict :=
  match d with
  | [] => [(k, v)]
  | (k', v') :: d' =>
      if decide (k = k') then (k, v) :: d' else (k', v') :: od_set k v d'
  end.

(** [d.setdefault(k, v)], for its effect on [d]. *)
Definition od_setdefault (k : string) (v : V) (d : odict) : odict :=
  if od_contains k d then d else od_set k v d.

Definition od_keys (d : odict) : list string := d.*1.
End odict.
Global Arguments odict : clear implicits.

(** The dictionary built by a comprehension [{k: v for ...}] over the pairs
    [l]: a later pair with the same key replaces the earlier one. *)
Definition dict_of (l : list (string * string)) : gmap string string :=
  foldl (fun m kv => <[kv.1 := kv.2]> m) ∅ l.

(** [m.update(m')] *)
Definition dict_update (m m' : gmap string string) : gmap string string :=
  m' ∪ m.

(** ** Exceptions

    The only exception [extract] lets escape is the [KeyError] of a failed
    subscript [d[k]]. *)

Inductive exn := KeyError (key : string).

Inductive py (A : Type) : Type :=
  | Return (a : A)
  | Raise (e : exn).
Global Arguments Return {A} a.
Global Arguments Raise {A} e.

Global Instance py_ret : MRet py := fun _ a => Return a.
Global Instance py_bind : MBind py := fun _ _ k m =>
  match m with
  | Return a => k a
  | Raise e => Raise e
  end.

(** [d[k]] *)
Definition od_getitem {V} (k : string) (d : odict V) : py V :=
  match od_get k d with
  | Some v => Return v
  | None => Raise (KeyError k)
  end.

(** [for x in l: s = body(s, x)], stopping at the first exception. *)
Fixpoint for_each {S A} (body : S -> A -> py S) (s : S) (l : list A) : py S :=
  match l with
  | [] => Return s
  | x :: l' => s' ← body s x; for_each body s' l'
  end.

(** [enumerate(l)] *)
Definition enumerate {A} (l : list A) : list (nat * A) :=
  zip (seq 0 (length l)) l.

(** ** The element tree

    [extract] reads the tree through three queries: the [switch] elements of
    the document, the [text] children of a switch, and the [tspan] children
    of a text element; of an element it reads the attribute ([get] gives
    [None] when it is absent) and the text ([None] when there is none). *)

Record Tspan := {
  tspan_id : option string;       (* tspan.get('id') *)
  tspan_text : option string;     (* tspan.text *)
}.

Record TextElem := {
  systemLanguage : option string; (* text_elem.get('systemLanguage') *)
  elem_text : option string;      (* text_elem.text *)
  tspans : list Tspan;            (* text_elem.xpath('./svg:tspan') *)
}.

(** [switch.xpath('./svg:text')] *)
Definition Switch := list TextElem.

(** [root.xpath('//svg:switch')] *)
Definition Document := list Switch.

(** An entry of [default_sequence]. *)
Record Run := {
  run_id : option string;
  run_text : string;
  run_normalized : string;
}.

(** [translations["new"]] and [translations["title"]] *)
Abbreviation Index := (odict (gmap string string)).
Abbreviation TitleIndex := (gmap string (gmap string string)).

(** The dictionary [extract] returns: ["new"] may have been popped, ["title"]
    is always there. *)
Record Translations := {
  new : option Index;
  title : TitleIndex;
}.

(** What the two collaborators of lines 15-29 answer: whether the path
    exists, and what [etree.parse] does with it. *)
Inductive Parse :=
  | XMLSyntaxError
  | OSError
  | Parsed (switches : Document).

Record File := {
  exists_ : bool;     (* svg_file_path.exists() *)
  parse : Parse;      (* etree.parse(str(svg_file_path), parser) *)
}.

(** The key under which [extract] looks for the identifier map inside
    [translations["new"]]. *)
Definition default_tspans_by_id : string := "default_tspans_by_id".

(** ** [extract]

    [normalize_text] comes from the sibling module [text_utils]; [extract]
    calls it with the mode, [normalize_text(text, case_insensitive)], and
    without, [normalize_text(text)].  It is a parameter of the model: the
    second argument is [Some mode], or [None] when the call leaves it out.
    Logging, and the [switch_translations] and [processed_switches] that only
    feed it, are left out. *)

Section extract.
Variable normalize_text : string -> option bool -> string.

(** Lines 59-63: the identifier map of one default text element. *)
Definition tspans_by_id_of (ts : list Tspan) : gmap string string :=
  dict_of
    (omap (fun tspan =>
             match truthy (tspan_text tspan), truthy (tspan_id tspan) with
             | Some text, Some id => Some (id, strip text)
             | _, _ => None
             end) ts).

(** Lines 65 and 103: [tspan.text.strip() if tspan.text else ""] for every
    tspan. *)
Definition tspan_contents (ts : list Tspan) : list string :=
  (fun tspan =>
     match truthy (tspan_text tspan) with
     | Some text => strip text
     | None => ""
     end) <$> ts.

(** Lines 78 and 106: [[text_elem.text.strip()] if text_elem.text else [""]]. *)
Definition own_contents (text_elem : TextElem) : list string :=
  match truthy (elem_text text_elem) with
  | Some text => [strip text]
  | None => [""]
  end.

Definition mk_run (id : option string) (text_value : string)
    (case_insensitive : bool) : Run :=
  {| run_id := id;
     run_text := text_value;
     run_normalized := normalize_text text_value (Some case_insensitive) |}.

(** Lines 66-76: the runs a default text element with tspans appends to
    [default_sequence]. *)
Definition tspan_runs (case_insensitive : bool) (ts : list Tspan) : list Run :=
  omap (fun tspan =>
          match truthy (tspan_text tspan) with
          | None => None
          | Some text => Some (mk_run (tspan_id tspan) (strip text) case_insensitive)
          end) ts.

(** Lines 79-87: the run a default text element without tspans appends. *)
Definition own_runs (case_insensitive : bool) (text_elem : TextElem) : list Run :=
  match truthy (elem_text text_elem) with
  | Some text =>
      match strip text with
      | EmptyString => []
      | text_value => [mk_run None text_value case_insensitive]
      end
  | None => []
  end.

(** Line 91 *)
Definition seed_key (case_insensitive : bool) (text : string) : string :=
  if case_insensitive then lower text else text.

(** Lines 89-92 *)
Definition seed (case_insensitive : bool) (text_contents : list string)
    (index : Index) : Index :=
  let default_texts :=
    (fun text => normalize_text text (Some case_insensitive)) <$> text_contents in
  foldl (fun index text => od_setdefault (seed_key case_insensitive text) ∅ index)
        index default_texts.

(** Lines 52-92: the body of the first loop over the text elements of a
    switch.  The state is [translations["new"]] and [default_sequence]. *)
Definition collect_default (case_insensitive : bool)
    (st : Index * list Run) (text_elem : TextElem) : py (Index * list Run) :=
  let '(index, default_sequence) := st in
  if is_truthy (systemLanguage text_elem) then mret st
  else
    match tspans text_elem with
    | _ :: _ =>
        let tspans_by_id := tspans_by_id_of (tspans text_elem) in
        by_id ← od_getitem default_tspans_by_id index;
        let index :=
          od_set default_tspans_by_id (dict_update by_id tspans_by_id) index in
        let text_contents := tspan_contents (tspans text_elem) in
        let default_sequence :=
          default_sequence ++ tspan_runs case_insensitive (tspans text_elem) in
        mret (seed case_insensitive text_contents index, default_sequence)
    | [] =>
        let text_contents := own_contents text_elem in
        let default_sequence :=
          default_sequence ++ own_runs case_insensitive text_elem in
        mret (seed case_insensitive text_contents index, default_sequence)
    end.

(** Line 101 *)
Definition tspans_to_id_of (ts : list Tspan) : gmap string string :=
  dict_of
    (omap (fun tspan =>
             match truthy (tspan_text tspan) with
             | Some text =>
                 match truthy (Some (strip text)), truthy (tspan_id tspan) with
                 | Some stripped, Some id => Some (stripped, id)
                 | _, _ => None
                 end
             | None => None
             end) ts).

(** Lines 112-116 *)
Definition base_id_of (tspans_to_id : gmap string string) (text : string)
    : option string :=
  let stripped_text := strip text in
  let id_value := tspans_to_id !! stripped_text in
  match truthy id_value with
  | Some id_value => Some (strip (split_dash_0 id_value))
  | None => None
  end.

(** Lines 118-123: the resolution through the identifier map. *)
Definition english_by_id (index : Index) (base_id : option string)
    : py (option string) :=
  match truthy base_id with
  | Some base_id =>
      by_id ← od_getitem default_tspans_by_id index;
      mret (py_or (by_id !! base_id) (by_id !! lower base_id))
  | None => mret None
  end.

(** Lines 125-126: the positional fallback. *)
Definition english_by_position (default_sequence : list Run) (idx : nat)
    (english_text : option string) : option string :=
  if negb (is_truthy english_text) && (idx <? length default_sequence)
  then run_text <$> default_sequence !! idx
  else english_text.

(** Line 132 *)
Definition store_key_of (index : Index) (english_text : string) : string :=
  if od_contains english_text index then english_text else lower english_text.

(** Lines 129-134 *)
Definition store (index : Index) (system_lang : string)
    (english_text : option string) (normalized_translation : string) : Index :=
  match truthy english_text with
  | None => index
  | Some english_text =>
      let store_key := store_key_of index english_text in
      match od_get store_key index with
      | Some entry =>
          od_set store_key (<[system_lang := normalized_translation]> entry) index
      | None => index
      end
  end.

(** Lines 110-134: the body of the loop over the runs of one translated
    text element. *)
Definition translated_run (tspans_to_id : gmap string string)
    (default_sequence : list Run) (system_lang : string)
    (index : Index) (run : nat * string) : py Index :=
  let '(idx, text) := run in
  let normalized_translation := normalize_text text None in
  let base_id := base_id_of tspans_to_id text in
  english_text ← english_by_id index base_id;
  let english_text := english_by_position default_sequence idx english_text in
  mret (store index system_lang english_text normalized_translation).

(** Lines 94-134: the body of the second loop over the text elements. *)
Definition collect_translated (default_sequence : list Run)
    (index : Index) (text_elem : TextElem) : py Index :=
  match truthy (systemLanguage text_elem) with
  | None => mret index
  | Some system_lang =>
      let '(tspans_to_id, text_contents) :=
        match tspans text_elem with
        | _ :: _ =>
            (tspans_to_id_of (tspans text_elem), tspan_contents (tspans text_elem))
        | [] => (∅, own_contents text_elem)
        end in
      for_each (translated_run tspans_to_id default_sequence system_lang)
               index (enumerate text_contents)
  end.

(** Lines 40-139: the body of the loop over the switches. *)
Definition process_switch (case_insensitive : bool)
    (index : Index) (text_elements : Switch) : py Index :=
  match text_elements with
  | [] => mret index
  | _ :: _ =>
      '(index, default_sequence) ←
        for_each (collect_default case_insensitive) (index, []) text_elements;
      for_each (collect_translated default_sequence) index text_elements
  end.

(** Lines 145-147: the test a key and its entry pass to give a title. *)
Definition has_year (key : string) (mapping : gmap string string) : bool :=
  negb (bool_decide (key = "")) && isdigit (last4 key)
  && (let year := last4 key in
      negb (bool_decide (key = year))
      && bool_decide
           (map_Forall (fun _ value =>
              isdigit (last4 value) = true ∧ last4 value = year) mapping)).

(** Lines 143-148 *)
Definition titles (index : Index) : TitleIndex :=
  foldl (fun title '(key, mapping) =>
           if has_year key mapping
           then <[but_last4 key := but_last4 <$> mapping]> title
           else title)
        ∅ index.

(** Lines 30-153: [extract] from the parsed tree on. *)
Definition extract_tree (switches : Document) (case_insensitive : bool)
    : py Translations :=
  index ← for_each (process_switch case_insensitive) [] switches;
  mret {| new := match index with [] => None | _ :: _ => Some index end;
          title := titles index |}.

(** [extract(svg_file_path, case_insensitive)]; [None] is Python's. *)
Definition extract (svg_file_path : File) (case_insensitive : bool)
    : py (option Translations) :=
  if negb (exists_ svg_file_path) then mret None
  else
    match parse svg_file_path with
    | XMLSyntaxError | OSError => mret None
    | Parsed switches =>
        translations ← extract_tree switches case_insensitive;
        mret (Some translations)
    end.
End extract.

(** Modelled from the spec: [normalize_text] of the module [text_utils],
    which is not among the sources.  Section 4.4 of the design document: it
    "trims leading/trailing whitespace; when case-insensitive mode is enabled
    [...] also case-folds", "the stored normalized value in translated
    entries is always case-preserving", and "empty input normalizes to empty
    string".  The translated values are the ones normalized by the call
    without a mode, so leaving the mode out means no case-folding. *)
Definition spec_normalize_text (text : string) (case_insensitive : option bool)
    : string :=
  let trimmed := strip text in
  if default false case_insensitive then lower trimmed else trimmed.

(** ** Vocabulary of the theorems *)

(** A text element is a default one when its [systemLanguage] is absent or
    empty: the test of lines 54 and 96. *)
Definition is_default (text_elem : TextElem) : Prop :=
  is_truthy (systemLanguage text_elem) = false.

(** [text_contents] of a text element, as lines 65 and 78, and again lines
    103 and 106, compute it. *)
Definition text_contents_of (text_elem : TextElem) : list string :=
  match tspans text_elem with
  | _ :: _ => tspan_contents (tspans text_elem)
  | [] => own_contents text_elem
  end.

(** [k] is a key that the default text elements of [switches] seed. *)
Definition seeded_by (normalize_text : string → option bool → string)
    (case_insensitive : bool) (switches : Document) (k : string) : Prop :=
  ∃ switch text_elem text,
    switch ∈ switches ∧ text_elem ∈ switch ∧ is_default text_elem ∧
    text ∈ text_contents_of text_elem ∧
    k = seed_key case_insensitive (normalize_text text (Some case_insensitive)).

(** [index'] has every key of [index] and, under it, every key of its
    entry: what was stored is still there, possibly with another value. *)
Definition extends (index index' : Index) : Prop :=
  ∀ k entry, od_get k index = Some entry →
    ∃ entry', od_get k index' = Some entry' ∧ dom entry ⊆ dom entry'.

(** The identifier map that the resolver consults holds [id]. *)
Definition holds_id (index : Index) (id : string) : Prop :=
  ∃ by_id, od_get default_tspans_by_id index = Some by_id ∧ is_Some (by_id !! id).

(** [id] is the identifier of a sub-run with text of a default text element
    of [switches]: what line 62 lets into the identifier map. *)
Definition collects_id (switches : Document) (id : string) : Prop :=
  ∃ switch text_elem tspan text,
    switch ∈ switches ∧ text_elem ∈ switch ∧ is_default text_elem ∧
    tspan ∈ tspans text_elem ∧
    truthy (tspan_text tspan) = Some text ∧ truthy (tspan_id tspan) = Some id.

(** The keys of the phrase index of a result; none when it was popped. *)
Definition phrase_keys (translations : Translations) : list string :=
  match new translations with
  | Some index => od_keys index
  | None => []
  end.

(** The phrase index as it stands when the loop over the switches is over;
    it is popped from the result when it is empty. *)
Definition phrase_index (translations : Translations) : Index :=
  default [] (new translations).

(** [len(s)] *)
Definition len (s : string) : nat := length (chars s).

(** The key ends in a year that all the values of its entry end in: it is
    longer than four characters, its last four characters are digits for
    [str.isdigit], and every value has the same last four characters. *)
Definition year_suffixed (key : string) (mapping : gmap string string) : Prop :=
  4 < len key ∧ isdigit (last4 key) = true ∧
  ∀ lang value, mapping !! lang = Some value → last4 value = last4 key.

(** A list of characters that does not start with white space. *)
Definition starts_clean (l : list ascii) : Prop :=
  match l with
  | [] => True
  | c :: _ => isspace_char c = false
  end.

(** [english_text] has a key in [index]: itself or its lower-cased form. *)
Definition has_store_key (index : Index) (english_text : string) : Prop :=
  english_text ∈ od_keys index ∨ lower english_text ∈ od_keys index.

(** No text element of the document has tspans. *)
Definition plain (switches : Document) : Prop :=
  ∀ switch text_elem,
    switch ∈ switches → text_elem ∈ switch → tspans text_elem = [].

(** A text element that carries a language and no identifier: none of its
    tspans has an [id]. *)
Definition translated_without_ids (text_elem : TextElem) : Prop :=
  ¬ is_default text_elem ∧
  ∀ tspan, tspan ∈ tspans text_elem → truthy (tspan_id tspan) = None.

(** Where the value stored under [name] in the entry of the key [k] can come
    from: a run of a text element with the language [name], normalized by
    the call without a mode; or, in the entry of [default_tspans_by_id], a
    default sub-run with the identifier [name], trimmed. *)
Definition from_document (normalize_text : string → option bool → string)
    (switches : Document) (k name value : string) : Prop :=
  (∃ switch text_elem text,
     switch ∈ switches ∧ text_elem ∈ switch ∧
     truthy (systemLanguage text_elem) = Some name ∧
     text ∈ text_contents_of text_elem ∧
     value = normalize_text text None) ∨
  (k = default_tspans_by_id ∧
   ∃ switch text_elem tspan text,
     switch ∈ switches ∧ text_elem ∈ switch ∧ is_default text_elem ∧
     tspan ∈ tspans text_elem ∧
     truthy (tspan_text tspan) = Some text ∧
     truthy (tspan_id tspan) = Some name ∧
     value = strip text).

(** Every value of every entry of [index] satisfies [origin]. *)
Definition all_values (origin : string → string → string → Prop)
    (index : Index) : Prop :=
  ∀ k entry name value,
    od_get k index = Some entry → entry !! name = Some value →
    origin k name value.

(** ** Documents

    The documents the theorems evaluate [extract] on, each with the markup
    of its switches. *)

Definition a_tspan (id text : option string) : Tspan :=
  {| tspan_id := id; tspan_text := text |}.

(** A text element without tspans. *)
Definition a_text (system_lang text : option string) : TextElem :=
  {| systemLanguage := system_lang; elem_text := text; tspans := [] |}.

(** A text element that holds tspans and no text of its own. *)
Definition a_text_of (system_lang : option string) (ts : list Tspan) : TextElem :=
  {| systemLanguage := system_lang; elem_text := None; tspans := ts |}.

(** A file that exists and parses into [switches]. *)
Definition a_file (switches : Document) : File :=
  {| exists_ := true; parse := Parsed switches |}.

(** [<switch><text><tspan>Hello</tspan></text></switch>] *)
Definition doc_default_tspan : Document :=
  [[a_text_of None [a_tspan None (Some "Hello")]]].

(** [<switch><text>Hello</text>
     <text systemLanguage="fr"><tspan id="id1-fr">Bonjour</tspan></text></switch>] *)
Definition doc_translated_id : Document :=
  [[a_text None (Some "Hello");
    a_text_of (Some "fr") [a_tspan (Some "id1-fr") (Some "Bonjour")]]].

(** [<switch><text><tspan id="id1">Hello</tspan></text>
     <text systemLanguage="fr"><tspan id="id1-fr">Bonjour</tspan></text></switch>] *)
Definition doc_cross_reference : Document :=
  [[a_text_of None [a_tspan (Some "id1") (Some "Hello")];
    a_text_of (Some "fr") [a_tspan (Some "id1-fr") (Some "Bonjour")]]].

(** The same switch behind one whose default text is the very phrase
    [default_tspans_by_id]:
    [<switch><text>default_tspans_by_id</text></switch>] *)
Definition doc_cross_reference_seeded : Document :=
  [a_text None (Some default_tspans_by_id)] :: doc_cross_reference.

(** A path that does not exist; [parse] is never asked. *)
Definition file_missing : File := {| exists_ := false; parse := OSError |}.

(** A file that exists and holds malformed markup. *)
Definition file_malformed : File := {| exists_ := true; parse := XMLSyntaxError |}.

(** A file that exists and cannot be read. *)
Definition file_unreadable : File := {| exists_ := true; parse := OSError |}.

(** [<switch><text/></switch>] *)
Definition doc_empty_default : Document := [[a_text None None]].

(** [<switch><text/><text systemLanguage="fr">Bonjour</text></switch>] *)
Definition doc_empty_default_translated : Document :=
  [[a_text None None; a_text (Some "fr") (Some "Bonjour")]].

(** [<switch><text systemLanguage="fr">Bonjour</text></switch>] *)
Definition doc_no_default : Document := [[a_text (Some "fr") (Some "Bonjour")]].

(** [<switch><text>default_tspans_by_id</text></switch>
    <switch><text><tspan id="a">Hello</tspan></text></switch>
    <switch><text>World</text>
     <text systemLanguage="fr"><tspan id="a-fr">Bonjour</tspan></text></switch>] *)
Definition doc_shared_ids : Document :=
  [[a_text None (Some "default_tspans_by_id")];
   [a_text_of None [a_tspan (Some "a") (Some "Hello")]];
   [a_text None (Some "World");
    a_text_of (Some "fr") [a_tspan (Some "a-fr") (Some "Bonjour")]]].

(** The same without the second switch. *)
Definition doc_separate_ids : Document :=
  [[a_text None (Some "default_tspans_by_id")];
   [a_text None (Some "World");
    a_text_of (Some "fr") [a_tspan (Some "a-fr") (Some "Bonjour")]]].

(** Four times the superscript two, U+00B2. *)
Definition superscript_twos : string :=
  String "178" (String "178" (String "178" (String "178" ""))).

(** [<switch><text>x&#178;&#178;&#178;&#178;</text></switch>] *)
Definition doc_superscript_year : Document :=
  [[a_text None (Some ("x" +:+ superscript_twos))]].

(** [<switch><text>Paris2023</text>
     <text systemLanguage="fr">Paris2023</text>
     <text systemLanguage="en">Paris2023</text></switch>] *)
Definition doc_paris : Document :=
  [[a_text None (Some "Paris2023");
    a_text (Some "fr") (Some "Paris2023");
    a_text (Some "en") (Some "Paris2023")]].

(** [<switch><text>Paris2023</text>
     <text systemLanguage="fr">Paris2022</text></switch>] *)
Definition doc_paris_mismatch : Document :=
  [[a_text None (Some "Paris2023"); a_text (Some "fr") (Some "Paris2022")]].

(** [<switch><text>Hello</text><text systemLanguage="de">Hallo</text></switch>] *)
Definition doc_hello_hallo : Document :=
  [[a_text None (Some "Hello"); a_text (Some "de") (Some "Hallo")]].

(** [<switch><text>Hello</text>
     <text systemLanguage="de"><tspan>Hallo</tspan></text></switch>] *)
Definition doc_hello_hallo_tspan : Document :=
  [[a_text None (Some "Hello");
    a_text_of (Some "de") [a_tspan None (Some "Hallo")]]].

(** [<switch><text>default_tspans_by_id</text>
     <text systemLanguage="x">HELLO</text></switch>
    <switch><text>hello</text></switch>
    <switch><text>World</text>
     <text systemLanguage="fr"><tspan id="x">Bonjour</tspan></text></switch>] *)
Definition doc_folded_fallback : Document :=
  [[a_text None (Some "default_tspans_by_id"); a_text (Some "x") (Some "HELLO")];
   [a_text None (Some "hello")];
   [a_text None (Some "World");
    a_text_of (Some "fr") [a_tspan (Some "x") (Some "Bonjour")]]].

(** [translations["new"]] when [extract], in the case-sensitive mode, gets
    to the French text element of [doc_folded_fallback]. *)
Definition index_before_fallback : Index :=
  [("default_tspans_by_id", {["x" := "HELLO"]}); ("hello", ∅); ("World", ∅)].

(** [<switch><text>Hello</text>
     <text systemLanguage="fr">Bonjour</text>
     <text systemLanguage="fr"><tspan/></text></switch>] *)
Definition doc_overwritten : Document :=
  [[a_text None (Some "Hello");
    a_text (Some "fr") (Some "Bonjour");
    a_text_of (Some "fr") [a_tspan None None]]].

(** [<switch><text><tspan>Hello</tspan></text>
     <text systemLanguage="de">Hallo</text></switch>] *)
Definition doc_default_run_tspan : Document :=
  [[a_text_of None [a_tspan None (Some "Hello")];
    a_text (Some "de") (Some "Hallo")]].

(** [<switch><text>Hello</text>
     <text systemLanguage="de"><tspan id="t1">Hallo</tspan></text></switch>] *)
Definition doc_unresolved_id : Document :=
  [[a_text None (Some "Hello");
    a_text_of (Some "de") [a_tspan (Some "t1") (Some "Hallo")]]].






(** The French text element of the last switch of [doc_shared_ids]. *)
Definition text_a_fr : TextElem :=
  a_text_of (Some "fr") [a_tspan (Some "a-fr") (Some "Bonjour")].

(** A default text element with two tspans of the same identifier:
    [<text><tspan id="a">Hello</tspan><tspan id="a">World</tspan></text>] *)
Definition text_twice_a : TextElem :=
  a_text_of None [a_tspan (Some "a") (Some "Hello");
                  a_tspan (Some "a") (Some "World")].

(** [translations["new"]] with an identifier map that knows [a] and [b]. *)
Definition index_a_b : Index :=
  [("default_tspans_by_id", {["a" := "Hi"; "b" := "There"]})].

(** [index_a_b] once the first loop has been through [text_twice_a], in the
    case-insensitive mode. *)
Definition index_a_b_merged : Index :=
  [("default_tspans_by_id", {["a" := "World"; "b" := "There"]});
   ("hello", ∅); ("world", ∅)].

(** The French text element of the last switch of [doc_folded_fallback]. *)
Definition text_x_fr : TextElem :=
  a_text_of (Some "fr") [a_tspan (Some "x") (Some "Bonjour")].

(** What [extract] returns for [doc_folded_fallback] in the case-sensitive
    mode. *)
Definition result_folded_fallback : Translations :=
  {| new := Some [("default_tspans_by_id", {["x" := "HELLO"]});
                  ("hello", {["fr" := "Bonjour"]});
                  ("World", ∅)];
     title := ∅ |}.

(** ** More vocabulary *)

(** The runs that the first loop appends to [default_sequence] for one text
    element (lines 66-76 and 79-87): none when it carries a language. *)
Definition runs_of (normalize_text : string → option bool → string)
    (case_insensitive : bool) (text_elem : TextElem) : list Run :=
  if is_truthy (systemLanguage text_elem) then []
  else
    match tspans text_elem with
    | _ :: _ => tspan_runs normalize_text case_insensitive (tspans text_elem)
    | [] => own_runs normalize_text case_insensitive text_elem
    end.

(** The content of a text: trimmed, or empty when there is none. *)
Definition content_of (text : option string) : string :=
  match truthy text with
  | Some text => strip text
  | None => ""
  end.

(** [<switch><text>default_text</text>
     <text systemLanguage="lang">text</text> ... </switch>], with one
    translated text element for each pair of [translated], in order; a pair
    without text stands for an empty element. *)
Definition plain_switch (default_text : string)
    (translated : list (string * option string)) : Switch :=
  a_text None (Some default_text)
  :: ((λ p, a_text (Some p.1) p.2) <$> translated).

(** A text element makes [extract] subscript the identifier map: a default
    one does when it has tspans (line 64), one with a language when one of
    its runs has an identifier with a base that is not empty (lines
    119-122). *)
Definition consults_map (text_elem : TextElem) : Prop :=
  if is_truthy (systemLanguage text_elem)
  then ∃ text,
         text ∈ tspan_contents (tspans text_elem) ∧
         is_truthy (base_id_of (tspans_to_id_of (tspans text_elem)) text) = true
  else tspans text_elem ≠ [].

(** Some text element of the document does. *)
Definition document_consults_map (switches : Document) : Prop :=
  ∃ switch text_elem,
    switch ∈ switches ∧ text_elem ∈ switch ∧ consults_map text_elem.

(** The text element with an empty [systemLanguage] attribute taken off. *)
Definition without_empty_language (text_elem : TextElem) : TextElem :=
  match systemLanguage text_elem with
  | Some EmptyString =>
      {| systemLanguage := None;
         elem_text := elem_text text_elem;
         tspans := tspans text_elem |}
  | _ => text_elem
  end.

(** ** Where the loops stand

    The theorems about one run of one translated text element name the
    state in which [extract] gets to it, and what it does from there on.
    The document is [before ++ (group_before ++ text_elem :: group_after)
    :: after], the runs of [text_elem] are [runs_before ++ run ::
    runs_after]. *)

(** [tspans_to_id] of a text element with a language: line 101 when it has
    tspans, line 105 when it has none. *)
Definition tspans_to_id_for (text_elem : TextElem) : gmap string string :=
  match tspans text_elem with
  | _ :: _ => tspans_to_id_of (tspans text_elem)
  | [] => ∅
  end.

(** [extract] gets to the run behind [runs_before] of [text_elem] with
    [default_sequence] collected for the switch and [translations["new"]]
    being [index]: the switches [before] are done, then the first loop over
    the whole switch, then the second loop over [group_before], then the
    loop of line 110 over [runs_before]. *)
Definition reaches_run (normalize_text : string → option bool → string)
    (case_insensitive : bool) (before : Document)
    (group_before : Switch) (text_elem : TextElem) (group_after : Switch)
    (system_lang : string) (runs_before : list (nat * string))
    (default_sequence : list Run) (index : Index) : Prop :=
  ∃ index0 index1 index2,
    for_each (process_switch normalize_text case_insensitive) [] before
      = Return index0 ∧
    for_each (collect_default normalize_text case_insensitive) (index0, [])
      (group_before ++ text_elem :: group_after)
      = Return (index1, default_sequence) ∧
    for_each (collect_translated normalize_text default_sequence) index1
      group_before = Return index2 ∧
    for_each (translated_run normalize_text (tspans_to_id_for text_elem)
                default_sequence system_lang) index2 runs_before
      = Return index.

(** With [translations["new"]] being [index] once the run is done,
    [extract] goes through [runs_after], the text elements [group_after]
    and the switches [after], and ends the loop of line 40 with
    [index_end]. *)
Definition finishes_from (normalize_text : string → option bool → string)
    (case_insensitive : bool) (text_elem : TextElem) (group_after : Switch)
    (after : Document) (system_lang : string)
    (runs_after : list (nat * string)) (default_sequence : list Run)
    (index index_end : Index) : Prop :=
  ∃ index3 index4,
    for_each (translated_run normalize_text (tspans_to_id_for text_elem)
                default_sequence system_lang) index runs_after
      = Return index3 ∧
    for_each (collect_translated normalize_text default_sequence) index3
      group_after = Return index4 ∧
    for_each (process_switch normalize_text case_insensitive) index4 after
      = Return index_end.

(** The text, trimmed, of the last tspan of [ts] that has a text and the
    identifier [id]. *)
Definition last_text_with_id (ts : list Tspan) (id : string) : option string :=
  (λ tspan, content_of (tspan_text tspan)) <$>
    last (filter (λ tspan, is_truthy (tspan_text tspan) = true ∧
                           truthy (tspan_id tspan) = Some id) ts).

(** No default text of the document is left once normalized: for every
    default text element, [default_texts] of line 89 only holds empty
    strings. *)
Definition no_default_text (normalize_text : string → option bool → string)
    (case_insensitive : bool) (switches : Document) : Prop :=
  ∀ switch text_elem text,
    switch ∈ switches → text_elem ∈ switch → is_default text_elem →
    text ∈ text_contents_of text_elem →
    normalize_text text (Some case_insensitive) = "".

(** The document has no default text element. *)
Definition no_default_element (switches : Document) : Prop :=
  ∀ switch text_elem,
    switch ∈ switches → text_elem ∈ switch → ¬ is_default text_elem.

(** White space only. *)
Definition blank (l : list ascii) : Prop :=
  Forall (λ c, isspace_char c = true) l.

(** An index that holds no key but the empty one, and no entry but an empty
    one. *)
Definition bare (index : Index) : Prop :=
  ∀ k entry, od_get k index = Some entry → k = "" ∧ entry = ∅.

(** * Theorems *)

#[local] Set Warnings "-clear-no-such-hyp".

(** ** Dictionaries *)

Section odict_facts.
Context {V : Type}.
Implicit Types (d : odict V) (k : string) (v : V).

Lemma od_get_set_eq k v d : od_get k (od_set k v d) = Some v.
Proof.
  induction d as [|[k' v'] d IH]; simpl.
  - by rewrite decide_True.
  - destruct (decide (k = k')) as [->|Hne]; simpl.
    + by rewrite decide_True.
    + by rewrite decide_False.
Qed.

Lemma od_get_set_ne k k' v d : k ≠ k' → od_get k' (od_set k v d) = od_get k' d.
Proof.
  intros Hne. induction d as [|[k0 v0] d IH]; simpl.
  - by rewrite decide_False.
  - destruct (decide (k = k0)) as [->|Hne0]; simpl.
    + by rewrite !decide_False.
    + by rewrite IH.
Qed.

Lemma od_get_set k k' v d :
  od_get k' (od_set k v d) = if decide (k = k') then Some v else od_get k' d.
Proof.
  case_decide; subst; auto using od_get_set_eq, od_get_set_ne.
Qed.

Lemma od_get_Some_keys k d : is_Some (od_get k d) ↔ k ∈ od_keys d.
Proof.
  unfold od_keys. induction d as [|[k' v'] d IH]; simpl.
  - split; [by intros [? ?]|by intros ?%elem_of_nil].
  - rewrite elem_of_cons. case_decide; subst.
    + split; eauto.
    + rewrite IH. split; [by right|by intros [?|?]].
Qed.

Lemma od_get_None_keys k d : od_get k d = None ↔ k ∉ od_keys d.
Proof. rewrite <-od_get_Some_keys, eq_None_not_Some. done. Qed.

Lemma od_contains_keys k d : od_contains k d = true ↔ k ∈ od_keys d.
Proof.
  rewrite <-od_get_Some_keys. unfold od_contains.
  destruct (od_get k d); split; eauto; [done|by intros [? ?]].
Qed.

Lemma od_contains_false k d : od_contains k d = false ↔ k ∉ od_keys d.
Proof. rewrite <-od_contains_keys. by destruct (od_contains k d). Qed.

Lemma od_keys_set_old k v d :
  k ∈ od_keys d → od_keys (od_set k v d) = od_keys d.
Proof.
  unfold od_keys. induction d as [|[k' v'] d IH]; simpl.
  - by intros ?%elem_of_nil.
  - rewrite elem_of_cons. case_decide; subst; simpl; [done|].
    intros [?|?]; [done|]. f_equal. by apply IH.
Qed.

Lemma od_keys_set_new k v d :
  k ∉ od_keys d → od_keys (od_set k v d) = od_keys d ++ [k].
Proof.
  unfold od_keys. induction d as [|[k' v'] d IH]; simpl; [done|].
  rewrite not_elem_of_cons. intros [? ?].
  rewrite decide_False by done. simpl. f_equal. by apply IH.
Qed.

Lemma elem_of_od_keys_set k k' v d :
  k' ∈ od_keys (od_set k v d) ↔ k' = k ∨ k' ∈ od_keys d.
Proof.
  rewrite <-!od_get_Some_keys, od_get_set. case_decide; subst.
  - split; eauto.
  - split; [by right|by intros [->|?]].
Qed.

Lemma elem_of_od_keys_setdefault k k' v d :
  k' ∈ od_keys (od_setdefault k v d) ↔ k' = k ∨ k' ∈ od_keys d.
Proof.
  unfold od_setdefault. destruct (od_contains k d) eqn:E.
  - apply od_contains_keys in E. split; [by right|by intros [->|?]].
  - apply elem_of_od_keys_set.
Qed.

Lemma od_get_setdefault_old k k' v d w :
  od_get k' d = Some w → od_get k' (od_setdefault k v d) = Some w.
Proof.
  intros Hw. unfold od_setdefault. destruct (od_contains k d) eqn:E; [done|].
  rewrite od_get_set. case_decide; subst; [|done].
  unfold od_contains in E. by rewrite Hw in E.
Qed.

Lemma od_keys_nil d : od_keys d = [] ↔ d = [].
Proof. unfold od_keys. by destruct d. Qed.
End odict_facts.

Lemma dict_of_acc_is_Some (l : list (string * string)) (m : gmap string string) k :
  is_Some (foldl (λ m kv, <[kv.1 := kv.2]> m) m l !! k) ↔
  is_Some (m !! k) ∨ k ∈ l.*1.
Proof.
  revert m. induction l as [|[k0 v0] l IH]; intros m; simpl.
  - rewrite elem_of_nil. tauto.
  - rewrite IH, elem_of_cons, lookup_insert_is_Some. simpl.
    destruct (decide (k0 = k)); subst; intuition congruence.
Qed.

Lemma dict_of_is_Some l k : is_Some (dict_of l !! k) ↔ k ∈ l.*1.
Proof.
  unfold dict_of. rewrite dict_of_acc_is_Some, lookup_empty, is_Some_alt. tauto.
Qed.

(** ** Loops *)

Lemma py_bind_Return {A B} (a : A) (k : A → py B) : (Return a ≫= k) = k a.
Proof. done. Qed.


Lemma for_each_cons {S A} (body : S → A → py S) s x l :
  for_each body s (x :: l) = (s' ← body s x; for_each body s' l).
Proof. done. Qed.

Lemma for_each_app {S A} (body : S → A → py S) s l1 l2 :
  for_each body s (l1 ++ l2) = (s' ← for_each body s l1; for_each body s' l2).
Proof.
  revert s. induction l1 as [|x l1 IH]; intros s; simpl; [done|].
  destruct (body s x) as [s1|e]; simpl; [apply IH|done].
Qed.

(** An invariant of the state that every iteration keeps holds after a loop
    that ends without an exception. *)
Lemma for_each_inv {S A} (P : S → Prop) (body : S → A → py S) l s s' :
  (∀ s x s', x ∈ l → P s → body s x = Return s' → P s') →
  P s → for_each body s l = Return s' → P s'.
Proof.
  revert s. induction l as [|x l IH]; intros s Hstep HP; simpl.
  - by intros [= <-].
  - destruct (body s x) as [s1|e] eqn:E; simpl; [|done].
    apply IH.
    + intros ? ? ? ?. apply Hstep. by right.
    + eapply Hstep; [by left|done..].
Qed.

(** What a loop adds to a set read off its state, when every iteration adds
    what its element contributes. *)
Lemma for_each_adds {S A K} (keys : S → K → Prop) (adds : A → K → Prop)
    (body : S → A → py S) l :
  (∀ s x s' k, x ∈ l → body s x = Return s' → (keys s' k ↔ keys s k ∨ adds x k)) →
  ∀ s s' k, for_each body s l = Return s' →
    (keys s' k ↔ keys s k ∨ ∃ x, x ∈ l ∧ adds x k).
Proof.
  induction l as [|x l IH]; intros Hstep s s' k; simpl.
  - intros [= <-]. split; [by left|]. by intros [?|(? & ?%elem_of_nil & ?)].
  - destruct (body s x) as [s1|e] eqn:E; simpl; [|done].
    intros Hrest. rewrite (IH (λ s0 x0 s0' k0 Hin, Hstep s0 x0 s0' k0 (list_elem_of_further _ _ _ Hin)) _ _ _ Hrest).
    rewrite (Hstep s x s1 k (list_elem_of_here _ _) E).
    split.
    + intros [[?|?]|(y & ? & ?)]; [by left|right; exists x|right; exists y];
        split; try done; [by left|by right].
    + intros [?|(y & [->|?]%elem_of_cons & ?)];
        [by left; left|by left; right|right; by exists y].
Qed.

(** ** The index only grows *)

Lemma extends_refl index : extends index index.
Proof. intros k entry ?. by exists entry. Qed.

Lemma extends_trans index1 index2 index3 :
  extends index1 index2 → extends index2 index3 → extends index1 index3.
Proof.
  intros H12 H23 k entry Hk.
  destruct (H12 _ _ Hk) as (entry2 & Hk2 & ?).
  destruct (H23 _ _ Hk2) as (entry3 & Hk3 & ?).
  exists entry3. split; [done|]. set_solver.
Qed.

Lemma extends_set index k entry entry' :
  od_get k index = Some entry → dom entry ⊆ dom entry' →
  extends index (od_set k entry' index).
Proof.
  intros Hk Hdom k0 entry0 Hk0. rewrite od_get_set. case_decide; subst.
  - exists entry'. by simplify_eq.
  - by exists entry0.
Qed.

Lemma extends_set_new index k entry :
  od_get k index = None → extends index (od_set k entry index).
Proof.
  intros Hk k0 entry0 Hk0. rewrite od_get_set. case_decide; subst.
  - congruence.
  - by exists entry0.
Qed.

Lemma extends_setdefault index k entry :
  extends index (od_setdefault k entry index).
Proof.
  unfold od_setdefault, od_contains.
  destruct (od_get k index) eqn:E; [apply extends_refl|by apply extends_set_new].
Qed.

Lemma extends_keys index index' k :
  extends index index' → k ∈ od_keys index → k ∈ od_keys index'.
Proof.
  intros Hext [entry Hk]%od_get_Some_keys.
  destruct (Hext _ _ Hk) as (entry' & Hk' & _).
  apply od_get_Some_keys. by exists entry'.
Qed.

Lemma extends_holds_id index index' id :
  extends index index' → holds_id index id → holds_id index' id.
Proof.
  intros Hext (by_id & Hk & Hid).
  destruct (Hext _ _ Hk) as (by_id' & Hk' & Hdom).
  exists by_id'. split; [done|].
  apply elem_of_dom, Hdom, elem_of_dom, Hid.
Qed.

(** ** The steps of [extract] *)

Section steps.
Variable normalize_text : string → option bool → string.
Implicit Types (index : Index) (case_insensitive : bool).

Lemma seed_extends case_insensitive text_contents index :
  extends index (seed normalize_text case_insensitive text_contents index).
Proof.
  unfold seed. revert index.
  induction text_contents as [|text l IH]; intros index; simpl.
  - apply extends_refl.
  - eapply extends_trans; [apply extends_setdefault|apply IH].
Qed.

Lemma elem_of_keys_seed case_insensitive text_contents index k :
  k ∈ od_keys (seed normalize_text case_insensitive text_contents index) ↔
  k ∈ od_keys index ∨
  ∃ text, text ∈ text_contents ∧
    k = seed_key case_insensitive (normalize_text text (Some case_insensitive)).
Proof.
  unfold seed. revert index.
  induction text_contents as [|text l IH]; intros index; simpl.
  - split; [by left|]. by intros [?|(? & ?%elem_of_nil & ?)].
  - rewrite IH, elem_of_od_keys_setdefault. split.
    + intros [[->|?]|(text' & ? & ?)];
        [right; exists text|by left|right; exists text'];
        split; try done; [by left|by right].
    + intros [?|(text' & [->|?]%elem_of_cons & ?)];
        [by left; right|by left; left|right; by exists text'].
Qed.

Lemma store_extends index system_lang english_text normalized_translation :
  extends index (store index system_lang english_text normalized_translation).
Proof.
  unfold store. destruct (truthy english_text) as [e|]; [|apply extends_refl].
  destruct (od_get _ index) as [entry|] eqn:E; [|apply extends_refl].
  eapply extends_set; [done|]. set_solver.
Qed.

Lemma store_keys index system_lang english_text normalized_translation :
  od_keys (store index system_lang english_text normalized_translation)
  = od_keys index.
Proof.
  unfold store. destruct (truthy english_text) as [e|]; [|done].
  destruct (od_get _ index) as [entry|] eqn:E; [|done].
  apply od_keys_set_old, od_get_Some_keys. by exists entry.
Qed.

(** *** The first loop over the text elements *)

Lemma collect_default_skip case_insensitive st text_elem :
  ¬ is_default text_elem →
  collect_default normalize_text case_insensitive st text_elem = Return st.
Proof.
  unfold is_default, collect_default. destruct st as [index default_sequence].
  by destruct (is_truthy (systemLanguage text_elem)).
Qed.

(** What the body of the first loop does with a default text element:
    without tspans it cannot fail; with tspans it needs the identifier
    map. *)
Lemma collect_default_plain case_insensitive index default_sequence text_elem :
  is_default text_elem → tspans text_elem = [] →
  collect_default normalize_text case_insensitive (index, default_sequence) text_elem
  = Return (seed normalize_text case_insensitive (own_contents text_elem) index,
            default_sequence ++ own_runs normalize_text case_insensitive text_elem).
Proof.
  unfold is_default, collect_default. by intros -> ->.
Qed.

Lemma collect_default_tspans case_insensitive index default_sequence text_elem :
  is_default text_elem → tspans text_elem ≠ [] →
  collect_default normalize_text case_insensitive (index, default_sequence) text_elem
  = by_id ← od_getitem default_tspans_by_id index;
    mret (seed normalize_text case_insensitive (tspan_contents (tspans text_elem))
            (od_set default_tspans_by_id
               (dict_update by_id (tspans_by_id_of (tspans text_elem))) index),
          default_sequence
            ++ tspan_runs normalize_text case_insensitive (tspans text_elem)).
Proof.
  unfold is_default, collect_default. intros -> ?.
  by destruct (tspans text_elem).
Qed.

Lemma collect_default_raises case_insensitive index default_sequence text_elem :
  is_default text_elem → tspans text_elem ≠ [] →
  od_get default_tspans_by_id index = None →
  collect_default normalize_text case_insensitive (index, default_sequence) text_elem
  = Raise (KeyError default_tspans_by_id).
Proof.
  intros ? ? Hget. rewrite collect_default_tspans by done.
  unfold od_getitem. by rewrite Hget.
Qed.

Lemma collect_default_extends case_insensitive st text_elem st' :
  collect_default normalize_text case_insensitive st text_elem = Return st' →
  extends st.1 st'.1.
Proof.
  destruct st as [index default_sequence].
  destruct (decide (is_default text_elem)) as [Hd|Hd].
  - destruct (tspans text_elem) as [|tspan l] eqn:Ets.
    + rewrite collect_default_plain by done. intros [= <-]. apply seed_extends.
    + rewrite collect_default_tspans by (by rewrite ?Ets). unfold od_getitem.
      destruct (od_get _ index) as [by_id|] eqn:E; [|done].
      intros [= <-]. simpl.
      eapply extends_trans; [|apply seed_extends].
      eapply extends_set; [done|]. unfold dict_update. set_solver.
  - rewrite collect_default_skip by done. intros [= <-]. apply extends_refl.
Qed.

Lemma collect_default_keys case_insensitive st text_elem st' k :
  collect_default normalize_text case_insensitive st text_elem = Return st' →
  k ∈ od_keys st'.1 ↔
  k ∈ od_keys st.1 ∨
  (is_default text_elem ∧
   ∃ text, text ∈ text_contents_of text_elem ∧
     k = seed_key case_insensitive (normalize_text text (Some case_insensitive))).
Proof.
  destruct st as [index default_sequence]. unfold text_contents_of.
  destruct (decide (is_default text_elem)) as [Hd|Hd].
  - destruct (tspans text_elem) as [|tspan l] eqn:Ets.
    + rewrite collect_default_plain by done. intros [= <-]. simpl.
      rewrite elem_of_keys_seed. naive_solver.
    + rewrite collect_default_tspans by (by rewrite ?Ets). unfold od_getitem.
      destruct (od_get _ index) as [by_id|] eqn:E; [|done].
      intros [= <-]. simpl. rewrite elem_of_keys_seed, Ets.
      rewrite od_keys_set_old by (apply od_get_Some_keys; eauto).
      naive_solver.
  - rewrite collect_default_skip by done. intros [= <-]. naive_solver.
Qed.


Lemma tspans_by_id_of_is_Some ts id :
  is_Some (tspans_by_id_of ts !! id) ↔
  ∃ tspan text, tspan ∈ ts ∧ truthy (tspan_text tspan) = Some text ∧
                truthy (tspan_id tspan) = Some id.
Proof.
  unfold tspans_by_id_of. rewrite dict_of_is_Some, list_elem_of_fmap. split.
  - intros ([id' v] & -> & (tspan & Hin & Hsome)%list_elem_of_omap).
    exists tspan. simpl.
    destruct (truthy (tspan_text tspan)) as [text|]; [|done].
    destruct (truthy (tspan_id tspan)) as [id''|]; [|done].
    exists text. by simplify_eq.
  - intros (tspan & text & Hin & Htext & Hid).
    exists (id, strip text). split; [done|].
    apply list_elem_of_omap. exists tspan. by rewrite Htext, Hid.
Qed.

(** A default text element with tspans leaves its identifiers in the
    identifier map. *)
Lemma collect_default_holds_id case_insensitive st text_elem st' tspan text id :
  collect_default normalize_text case_insensitive st text_elem = Return st' →
  is_default text_elem → tspan ∈ tspans text_elem →
  truthy (tspan_text tspan) = Some text → truthy (tspan_id tspan) = Some id →
  holds_id st'.1 id.
Proof.
  destruct st as [index default_sequence]. intros Hret Hd Hin Htext Hid.
  rewrite collect_default_tspans in Hret
    by (done || by intros E; rewrite E in Hin; apply elem_of_nil in Hin).
  unfold od_getitem in Hret.
  destruct (od_get _ index) as [by_id|] eqn:E; [|done].
  injection Hret as <-. simpl.
  eapply extends_holds_id; [apply seed_extends|].
  eexists. split; [apply od_get_set_eq|].
  unfold dict_update. apply elem_of_dom. rewrite dom_union_L.
  apply elem_of_union_l, elem_of_dom, tspans_by_id_of_is_Some. eauto.
Qed.

(** *** The second loop over the text elements *)

Lemma english_by_id_no_base index base_id :
  truthy base_id = None → english_by_id index base_id = Return None.
Proof. unfold english_by_id. by intros ->. Qed.

Lemma english_by_id_raises index base_id :
  is_truthy base_id = true → od_get default_tspans_by_id index = None →
  english_by_id index base_id = Raise (KeyError default_tspans_by_id).
Proof.
  unfold english_by_id, is_truthy, od_getitem. intros Hb ->.
  by destruct (truthy base_id).
Qed.

Lemma translated_run_Return tspans_to_id default_sequence system_lang
    index idx text index' :
  translated_run normalize_text tspans_to_id default_sequence system_lang
    index (idx, text) = Return index' →
  ∃ english_text,
    english_by_id index (base_id_of tspans_to_id text) = Return english_text ∧
    index' = store index system_lang
               (english_by_position default_sequence idx english_text)
               (normalize_text text None).
Proof.
  unfold translated_run.
  destruct (english_by_id _ _) as [english_text|e]; [|done].
  intros [= <-]. by exists english_text.
Qed.

Lemma translated_run_extends tspans_to_id default_sequence system_lang
    index run index' :
  translated_run normalize_text tspans_to_id default_sequence system_lang
    index run = Return index' →
  extends index index'.
Proof.
  destruct run as [idx text].
  intros (english_text & _ & ->)%translated_run_Return. apply store_extends.
Qed.

Lemma translated_run_keys tspans_to_id default_sequence system_lang
    index run index' :
  translated_run normalize_text tspans_to_id default_sequence system_lang
    index run = Return index' →
  od_keys index' = od_keys index.
Proof.
  destruct run as [idx text].
  intros (english_text & _ & ->)%translated_run_Return. apply store_keys.
Qed.

Lemma collect_translated_extends default_sequence index text_elem index' :
  collect_translated normalize_text default_sequence index text_elem
    = Return index' →
  extends index index'.
Proof.
  unfold collect_translated.
  destruct (truthy (systemLanguage text_elem)) as [system_lang|];
    [|intros [= <-]; apply extends_refl].
  destruct (match tspans text_elem with [] => _ | _ => _ end)
    as [tspans_to_id text_contents].
  apply (for_each_inv (extends index)); [|apply extends_refl].
  intros index1 run index2 _ ? ?%translated_run_extends.
  by eapply extends_trans.
Qed.

Lemma collect_translated_keys default_sequence index text_elem index' :
  collect_translated normalize_text default_sequence index text_elem
    = Return index' →
  od_keys index' = od_keys index.
Proof.
  unfold collect_translated.
  destruct (truthy (systemLanguage text_elem)) as [system_lang|];
    [|by intros [= <-]].
  destruct (match tspans text_elem with [] => _ | _ => _ end)
    as [tspans_to_id text_contents].
  apply (for_each_inv (λ index1, od_keys index1 = od_keys index)); [|done].
  intros index1 run index2 _ <- ?%translated_run_keys. done.
Qed.

(** *** One switch *)

Lemma process_switch_Return case_insensitive index text_elements index' :
  process_switch normalize_text case_insensitive index text_elements
    = Return index' →
  ∃ index1 default_sequence,
    for_each (collect_default normalize_text case_insensitive)
      (index, []) text_elements = Return (index1, default_sequence) ∧
    for_each (collect_translated normalize_text default_sequence)
      index1 text_elements = Return index'.
Proof.
  unfold process_switch. destruct text_elements as [|text_elem l].
  - intros [= <-]. by exists index, [].
  - destruct (for_each _ _ _) as [[index1 default_sequence]|e]; [|done].
    simpl. intros ?. by exists index1, default_sequence.
Qed.

Lemma process_switch_raises_at_first case_insensitive index text_elem
    text_elements :
  is_default text_elem → tspans text_elem ≠ [] →
  od_get default_tspans_by_id index = None →
  process_switch normalize_text case_insensitive index (text_elem :: text_elements)
  = Raise (KeyError default_tspans_by_id).
Proof.
  intros. unfold process_switch.
  by rewrite for_each_cons, collect_default_raises.
Qed.

Lemma process_switch_extends case_insensitive index text_elements index' :
  process_switch normalize_text case_insensitive index text_elements
    = Return index' →
  extends index index'.
Proof.
  intros (index1 & default_sequence & Hdef & Htr)%process_switch_Return.
  apply extends_trans with index1.
  - apply (for_each_inv (λ st, extends index st.1) _ _ _ _) in Hdef;
      [done| |apply extends_refl].
    intros st text_elem st' _ ? ?%collect_default_extends.
    by eapply extends_trans.
  - apply (for_each_inv (extends index1) _ _ _ _) in Htr;
      [done| |apply extends_refl].
    intros st text_elem st' _ ? ?%collect_translated_extends.
    by eapply extends_trans.
Qed.

Lemma process_switch_keys case_insensitive index text_elements index' k :
  process_switch normalize_text case_insensitive index text_elements
    = Return index' →
  k ∈ od_keys index' ↔
  k ∈ od_keys index ∨
  ∃ text_elem, text_elem ∈ text_elements ∧ is_default text_elem ∧
    ∃ text, text ∈ text_contents_of text_elem ∧
      k = seed_key case_insensitive (normalize_text text (Some case_insensitive)).
Proof.
  intros (index1 & default_sequence & Hdef & Htr)%process_switch_Return.
  apply (for_each_inv (λ index2, od_keys index2 = od_keys index1) _ _ _ _) in Htr;
    [|by intros index2 ? index3 _ <- ?%collect_translated_keys|done].
  rewrite Htr.
  apply (for_each_adds (λ st k, k ∈ od_keys st.1)
           (λ text_elem k, is_default text_elem ∧
              ∃ text, text ∈ text_contents_of text_elem ∧
                k = seed_key case_insensitive
                      (normalize_text text (Some case_insensitive)))) with (k:=k)
    in Hdef; [done|].
  intros st text_elem st' k' _. apply collect_default_keys.
Qed.

Lemma process_switch_holds_id case_insensitive index text_elements index'
    text_elem tspan text id :
  process_switch normalize_text case_insensitive index text_elements
    = Return index' →
  text_elem ∈ text_elements → is_default text_elem →
  tspan ∈ tspans text_elem →
  truthy (tspan_text tspan) = Some text → truthy (tspan_id tspan) = Some id →
  holds_id index' id.
Proof.
  intros (index1 & default_sequence & Hdef & Htr)%process_switch_Return
    Hin Hd Hts Htext Hid.
  assert (extends index1 index') as Hext.
  { apply (for_each_inv (extends index1) _ _ _ _) in Htr;
      [done| |apply extends_refl].
    intros st e st' _ ? ?%collect_translated_extends. by eapply extends_trans. }
  eapply extends_holds_id; [done|]. clear Htr Hext.
  apply list_elem_of_split in Hin as (l1 & l2 & ->).
  rewrite for_each_app in Hdef.
  destruct (for_each _ _ l1) as [st1|e]; [|done]. simpl in Hdef.
  destruct (collect_default _ _ st1 text_elem) as [st2|e] eqn:E; [|done].
  simpl in Hdef.
  apply (for_each_inv (λ st, extends st2.1 st.1) _ _ _ _) in Hdef.
  - eapply extends_holds_id; [done|]. by eapply collect_default_holds_id.
  - intros st e st' _ ? ?%collect_default_extends. by eapply extends_trans.
  - apply extends_refl.
Qed.

(** *** The document *)

Lemma switches_extends case_insensitive index switches index' :
  for_each (process_switch normalize_text case_insensitive) index switches
    = Return index' →
  extends index index'.
Proof.
  apply (for_each_inv (extends index)); [|apply extends_refl].
  intros index1 switch index2 _ ? ?%process_switch_extends.
  by eapply extends_trans.
Qed.

Lemma switches_keys case_insensitive index switches index' k :
  for_each (process_switch normalize_text case_insensitive) index switches
    = Return index' →
  k ∈ od_keys index' ↔
  k ∈ od_keys index ∨ seeded_by normalize_text case_insensitive switches k.
Proof.
  intros Hret.
  apply (for_each_adds (λ index k, k ∈ od_keys index)
           (λ switch k, ∃ text_elem, text_elem ∈ switch ∧ is_default text_elem ∧
              ∃ text, text ∈ text_contents_of text_elem ∧
                k = seed_key case_insensitive
                      (normalize_text text (Some case_insensitive)))) with (k:=k)
    in Hret.
  - rewrite Hret. unfold seeded_by. naive_solver.
  - intros index1 switch index2 k' _. apply process_switch_keys.
Qed.

Lemma switches_holds_id case_insensitive index switches index' id :
  for_each (process_switch normalize_text case_insensitive) index switches
    = Return index' →
  collects_id switches id → holds_id index' id.
Proof.
  intros Hret (switch & text_elem & tspan & text & Hin & ? & ? & ? & ? & ?).
  apply list_elem_of_split in Hin as (l1 & l2 & ->).
  rewrite for_each_app in Hret.
  destruct (for_each _ _ l1) as [index1|e]; [|done]. simpl in Hret.
  destruct (process_switch _ _ index1 switch) as [index2|e] eqn:E; [|done].
  simpl in Hret. apply switches_extends in Hret.
  eapply extends_holds_id; [done|]. by eapply process_switch_holds_id.
Qed.

Lemma extract_tree_Return switches case_insensitive translations :
  extract_tree normalize_text switches case_insensitive = Return translations →
  ∃ index,
    for_each (process_switch normalize_text case_insensitive) [] switches
      = Return index ∧
    new translations = match index with [] => None | _ :: _ => Some index end ∧
    title translations = titles index.
Proof.
  unfold extract_tree. destruct (for_each _ _ _) as [index|e]; [|done].
  intros [= <-]. by exists index.
Qed.
End steps.

(** ** Extraction of a parsed document can abort *)

(** Where the first switch starts with a default text element that has
    tspans, line 64 subscripts the empty [translations["new"]]. *)
Lemma extract_tree_raises_at_first normalize_text case_insensitive
    text_elem text_elements switches :
  is_default text_elem → tspans text_elem ≠ [] →
  extract_tree normalize_text ((text_elem :: text_elements) :: switches)
    case_insensitive
  = Raise (KeyError default_tspans_by_id).
Proof.
  intros Hd Hts. unfold extract_tree.
  by rewrite for_each_cons, process_switch_raises_at_first.
Qed.

(** C1 (the code departs from it).  [extract] does not run to completion on
    every document that parses: on a switch whose default text element holds
    a tspan, and on a switch whose translated text element holds a tspan with
    an identifier and a text, it raises [KeyError], in either mode. *)
Theorem C1_extract_aborts_with_KeyError case_insensitive :
  extract spec_normalize_text (a_file doc_default_tspan) case_insensitive
    = Raise (KeyError "default_tspans_by_id") ∧
  extract spec_normalize_text (a_file doc_translated_id) case_insensitive
    = Raise (KeyError "default_tspans_by_id").
Proof. by destruct case_insensitive; vm_compute. Qed.

(** C2 (the code departs from it).  On the document of the cross-reference
    example, a default sub-run [id1] "Hello" and a French sub-run [id1-fr]
    "Bonjour", [extract] returns no index at all: it raises [KeyError] at
    line 64, whatever the normalizer and the mode. *)
Theorem C2_cross_reference_aborts normalize_text case_insensitive :
  extract normalize_text (a_file doc_cross_reference) case_insensitive
    = Raise (KeyError "default_tspans_by_id").
Proof.
  unfold extract, a_file, doc_cross_reference. cbn [exists_ parse negb].
  by rewrite extract_tree_raises_at_first.
Qed.

(** The resolution itself is the one the design document describes: once
    [translations["new"]] has the key [default_tspans_by_id], here as a
    phrase of an earlier switch, "Hello" gets its French translation. *)
Example cross_reference_when_seeded :
  ∃ translations index entry,
    extract spec_normalize_text (a_file doc_cross_reference_seeded) true
      = Return (Some translations) ∧
    new translations = Some index ∧
    od_get "hello" index = Some entry ∧ entry !! "fr" = Some "Bonjour".
Proof.
  eexists _, _, _. split; [by vm_compute|]. split; [done|]. by vm_compute.
Qed.

(** ** Failures *)

(** C5, as the code has it.  A path that does not exist, malformed markup
    and an unreadable file all make [extract] return [None], without an
    exception and without any index; a file that parses never gives [None],
    so the caller tells failure from success, and nothing else. *)
Theorem C5_failures_return_None normalize_text svg_file_path case_insensitive :
  (exists_ svg_file_path = false ∨ parse svg_file_path = XMLSyntaxError
   ∨ parse svg_file_path = OSError →
   extract normalize_text svg_file_path case_insensitive = Return None) ∧
  (∀ switches,
     exists_ svg_file_path = true → parse svg_file_path = Parsed switches →
     extract normalize_text svg_file_path case_insensitive ≠ Return None ∧
     (∀ translations,
        extract normalize_text svg_file_path case_insensitive
          = Return (Some translations) ↔
        extract_tree normalize_text switches case_insensitive
          = Return translations)).
Proof.
  unfold extract. split.
  - intros [->|[->| ->]]; [done|by destruct (exists_ _)..].
  - intros switches -> ->. simpl.
    destruct (extract_tree _ _ _) as [translations|e];
      cbn [mbind mret py_bind py_ret].
    + split; [done|]. intros ?. split; intros [= ->]; reflexivity.
    + split; [done|]. intros ?. split; intros [=].
Qed.

Lemma C5_failures_return_None_witness :
  extract spec_normalize_text file_missing true = Return None.
Proof.
  apply (C5_failures_return_None spec_normalize_text file_missing true).
  left. reflexivity.
Defined.

(** C5 as stated fails: the two kinds of failure are one and the same
    value. *)
Lemma C5_failures_not_distinguished :
  extract spec_normalize_text file_missing true
  = extract spec_normalize_text file_malformed true ∧
  extract spec_normalize_text file_malformed true
  = extract spec_normalize_text file_unreadable true ∧
  extract spec_normalize_text file_missing true = Return None.
Proof. by vm_compute. Qed.

(** ** Documents without tspans

    The failed subscript is the only way out of [extract]: a document whose
    text elements have no tspans never takes it. *)

Lemma for_each_returns {S A} (body : S → A → py S) l s :
  (∀ s x, x ∈ l → ∃ s', body s x = Return s') →
  ∃ s', for_each body s l = Return s'.
Proof.
  revert s. induction l as [|x l IH]; intros s Hbody; simpl; [by eexists|].
  destruct (Hbody s x (list_elem_of_here _ _)) as [s1 ->]. simpl.
  apply IH. intros s2 y Hy. apply Hbody. by right.
Qed.

Section plain_documents.
Variable normalize_text : string → option bool → string.

Lemma collect_default_plain_returns case_insensitive st text_elem :
  tspans text_elem = [] →
  ∃ st', collect_default normalize_text case_insensitive st text_elem = Return st'.
Proof.
  intros Hts. destruct st as [index default_sequence].
  destruct (decide (is_default text_elem)).
  - rewrite collect_default_plain by done. by eexists.
  - rewrite collect_default_skip by done. by eexists.
Qed.

Lemma collect_translated_plain_returns default_sequence index text_elem :
  tspans text_elem = [] →
  ∃ index',
    collect_translated normalize_text default_sequence index text_elem
      = Return index'.
Proof.
  intros Hts. unfold collect_translated. rewrite Hts.
  destruct (truthy (systemLanguage text_elem)) as [system_lang|]; [|by eexists].
  apply for_each_returns. intros index1 [idx text] _.
  unfold translated_run, base_id_of. rewrite lookup_empty.
  rewrite english_by_id_no_base by done. by eexists.
Qed.

Lemma process_switch_plain_returns case_insensitive index text_elements :
  (∀ text_elem, text_elem ∈ text_elements → tspans text_elem = []) →
  ∃ index',
    process_switch normalize_text case_insensitive index text_elements
      = Return index'.
Proof.
  intros Hplain. unfold process_switch.
  destruct text_elements as [|text_elem l] eqn:E; [by eexists|].
  rewrite <-E in *.
  destruct (for_each_returns (collect_default normalize_text case_insensitive)
              text_elements (index, [])) as [[index1 default_sequence] ->].
  { intros st e He. apply collect_default_plain_returns. by apply Hplain. }
  rewrite py_bind_Return.
  apply for_each_returns. intros index2 e He.
  apply collect_translated_plain_returns. by apply Hplain.
Qed.

Lemma extract_tree_plain_returns switches case_insensitive :
  plain switches →
  ∃ translations,
    extract_tree normalize_text switches case_insensitive = Return translations.
Proof.
  intros Hplain. unfold extract_tree.
  destruct (for_each_returns (process_switch normalize_text case_insensitive)
              switches []) as [index ->]; [|by eexists].
  intros index switch Hswitch. apply process_switch_plain_returns.
  intros text_elem. by apply Hplain.
Qed.
End plain_documents.

(** ** The keys of the phrase index *)

Lemma text_contents_of_inhabited text_elem :
  ∃ text, text ∈ text_contents_of text_elem.
Proof.
  unfold text_contents_of, tspan_contents, own_contents.
  destruct (tspans text_elem) as [|tspan l]; simpl.
  - destruct (truthy (elem_text text_elem)); eexists; apply list_elem_of_here.
  - eexists. apply list_elem_of_here.
Qed.

(** The keys of the returned phrase index are the keys that the default
    text elements seed, no more and no less. *)
Lemma extract_tree_keys normalize_text switches case_insensitive translations k :
  extract_tree normalize_text switches case_insensitive = Return translations →
  k ∈ phrase_keys translations ↔
  seeded_by normalize_text case_insensitive switches k.
Proof.
  intros (index & Hloop & Hnew & _)%extract_tree_Return.
  apply switches_keys with (k:=k) in Hloop.
  assert (k ∈ phrase_keys translations ↔ k ∈ od_keys index) as ->.
  { unfold phrase_keys. rewrite Hnew. by destruct index. }
  rewrite Hloop. unfold od_keys. simpl. rewrite elem_of_nil. tauto.
Qed.

Lemma lower_empty : lower "" = "".
Proof. done. Qed.

(** C3, as the code has it.  The keys of the returned phrase index are
    exactly the seed keys of the text contents of the default text elements:
    the normalized text, lower-cased in the case-insensitive mode, of the
    element or of each of its sub-runs, an empty or absent text counting as
    the empty string.  So where such a content is empty and the normalizer
    maps the empty string to itself, the empty string is a key. *)
Theorem C3_keys_are_the_seeded_keys normalize_text switches case_insensitive
    translations :
  extract_tree normalize_text switches case_insensitive = Return translations →
  (∀ k, k ∈ phrase_keys translations ↔
        seeded_by normalize_text case_insensitive switches k) ∧
  (∀ switch text_elem,
     switch ∈ switches → text_elem ∈ switch → is_default text_elem →
     "" ∈ text_contents_of text_elem →
     normalize_text "" (Some case_insensitive) = "" →
     "" ∈ phrase_keys translations).
Proof.
  intros Hret. split.
  - intros k. by apply extract_tree_keys.
  - intros switch text_elem ? ? ? ? Hnorm.
    apply (extract_tree_keys _ _ _ _ _ Hret).
    exists switch, text_elem, "". repeat split; try done.
    rewrite Hnorm. by destruct case_insensitive.
Qed.

Lemma C3_keys_are_the_seeded_keys_witness :
  "" ∈ phrase_keys {| new := Some [("", ∅)]; title := ∅ |}.
Proof.
  refine (proj2 (C3_keys_are_the_seeded_keys spec_normalize_text
                   doc_empty_default true _ _)
            [a_text None None] (a_text None None) _ _ _ _ _).
  - by vm_compute.
  - apply list_elem_of_here.
  - apply list_elem_of_here.
  - reflexivity.
  - apply list_elem_of_here.
  - reflexivity.
Defined.

(** C3 as stated fails: a default text element without text gives the
    phrase index the empty string as a key. *)
Lemma C3_empty_key_is_created :
  extract spec_normalize_text (a_file doc_empty_default) true
    = Return (Some {| new := Some [("", ∅)]; title := ∅ |}) ∧
  "" ∈ phrase_keys {| new := Some [("", ∅)]; title := ∅ |}.
Proof. split; [by vm_compute|]. apply list_elem_of_here. Qed.


(** ** Strings *)

Lemma str_chars s : str (chars s) = s.
Proof. apply string_of_list_ascii_of_string. Qed.

Lemma chars_str l : chars (str l) = l.
Proof. apply list_ascii_of_string_of_list_ascii. Qed.

Lemma chars_inj s1 s2 : chars s1 = chars s2 → s1 = s2.
Proof. intros E. by rewrite <-(str_chars s1), <-(str_chars s2), E. Qed.

Lemma len_last4 s : len (last4 s) = len s `min` 4.
Proof. unfold len, last4. rewrite chars_str, length_drop. lia. Qed.

Lemma last4_short s : len s ≤ 4 → last4 s = s.
Proof.
  unfold len, last4. intros Hlen.
  replace (length (chars s) - 4) with 0 by lia. apply str_chars.
Qed.

(** [key != key[-4:]] says that the key is longer than its last four
    characters. *)
Lemma last4_neq s : s ≠ last4 s ↔ 4 < len s.
Proof.
  split.
  - intros Hne. destruct (decide (4 < len s)); [done|].
    destruct Hne. symmetry. apply last4_short. lia.
  - intros Hlen E. apply (f_equal len) in E. rewrite len_last4 in E. lia.
Qed.

(** ** The title index *)

(** The test of lines 145-147, spelled out. *)
Lemma has_year_spec key mapping :
  has_year key mapping = true ↔
  4 < len key ∧ isdigit (last4 key) = true ∧
  ∀ lang value, mapping !! lang = Some value → last4 value = last4 key.
Proof.
  unfold has_year.
  rewrite !andb_true_iff, !negb_true_iff, !bool_decide_eq_false,
    bool_decide_eq_true, last4_neq.
  unfold map_Forall. split.
  - intros [[_ Hdigit] [Hlen Hall]]. repeat split; try done.
    intros lang value Hv. by apply (Hall _ _ Hv).
  - intros (Hlen & Hdigit & Hall). repeat split; try done.
    + intros ->. by vm_compute in Hlen; lia.
    + rewrite (Hall _ _ H). done.
    + by eapply Hall.
Qed.

Lemma titles_snoc index key mapping :
  titles (index ++ [(key, mapping)]) =
  if has_year key mapping
  then <[but_last4 key := but_last4 <$> mapping]> (titles index)
  else titles index.
Proof. unfold titles. by rewrite foldl_snoc. Qed.

(** Every title entry comes from a key of the phrase index that passes the
    test. *)
Lemma titles_lookup_Some (index : Index) stem entry :
  titles index !! stem = Some entry →
  ∃ key mapping, (key, mapping) ∈ index ∧ has_year key mapping = true ∧
                 stem = but_last4 key ∧ entry = but_last4 <$> mapping.
Proof.
  induction index as [|[key mapping] index IH] using rev_ind; [done|].
  rewrite titles_snoc. setoid_rewrite elem_of_app.
  destruct (has_year key mapping) eqn:E.
  - rewrite lookup_insert. case_decide as Hstem.
    + intros [= <-]. exists key, mapping. repeat split; try done.
      right. apply list_elem_of_here.
    + intros (key' & mapping' & ? & ?)%IH. exists key', mapping'. by auto.
  - intros (key' & mapping' & ? & ?)%IH. exists key', mapping'. by auto.
Qed.

(** Every key that passes the test has its title entry. *)
Lemma titles_is_Some (index : Index) key mapping :
  (key, mapping) ∈ index → has_year key mapping = true →
  is_Some (titles index !! but_last4 key).
Proof.
  induction index as [|[key' mapping'] index IH] using rev_ind.
  - by intros ?%elem_of_nil.
  - rewrite titles_snoc, elem_of_app, list_elem_of_singleton. intros Hin Hyear.
    destruct (has_year key' mapping') eqn:E.
    + rewrite lookup_insert_is_Some'.
      destruct Hin as [Hin|[= -> ->]]; [right; by apply IH|by left].
    + destruct Hin as [Hin|[= -> ->]]; [by apply IH|congruence].
Qed.

(** The title entry is that of the last key that passes the test, among
    those with the same stem. *)
Lemma titles_lookup_last (before after : Index) key mapping :
  has_year key mapping = true →
  (∀ key' mapping', (key', mapping') ∈ after → has_year key' mapping' = true →
                    but_last4 key' ≠ but_last4 key) →
  titles (before ++ (key, mapping) :: after) !! but_last4 key
  = Some (but_last4 <$> mapping).
Proof.
  intros Hyear. induction after as [|[key' mapping'] after IH] using rev_ind.
  - intros _. by rewrite titles_snoc, Hyear, lookup_insert_eq.
  - intros Hafter.
    replace (before ++ (key, mapping) :: after ++ [(key', mapping')])
      with ((before ++ (key, mapping) :: after) ++ [(key', mapping')])
      by by rewrite <-app_assoc.
    rewrite titles_snoc.
    assert (titles (before ++ (key, mapping) :: after) !! but_last4 key
            = Some (but_last4 <$> mapping)) as Hrec.
    { apply IH. intros k m ?. apply Hafter, elem_of_app. by left. }
    destruct (has_year key' mapping') eqn:E; [|done].
    rewrite lookup_insert_ne; [done|].
    apply (Hafter key' mapping'); [|done].
    apply elem_of_app. right. apply list_elem_of_here.
Qed.

(** ** One pair per key *)

Lemma od_get_elem_of {V} (d : odict V) k v :
  NoDup (od_keys d) → od_get k d = Some v ↔ (k, v) ∈ d.
Proof.
  unfold od_keys. induction d as [|[k' v'] d IH]; simpl.
  - rewrite elem_of_nil. by split.
  - rewrite NoDup_cons, elem_of_cons. intros [Hk' Hd].
    case_decide; subst.
    + split; [intros [= ->]; by left|].
      intros [[= ->]|Hin]; [done|].
      destruct Hk'. apply list_elem_of_fmap. by exists (k', v).
    + rewrite (IH Hd). split; [by right|]. by intros [[= -> ->]|?].
Qed.

Lemma od_set_NoDup {V} (d : odict V) k v :
  NoDup (od_keys d) → NoDup (od_keys (od_set k v d)).
Proof.
  intros Hd. destruct (decide (k ∈ od_keys d)).
  - by rewrite od_keys_set_old.
  - rewrite od_keys_set_new by done. apply NoDup_app. split; [done|].
    split; [|apply NoDup_singleton].
    by intros k' ? ->%list_elem_of_singleton.
Qed.

Lemma od_setdefault_NoDup {V} (d : odict V) k v :
  NoDup (od_keys d) → NoDup (od_keys (od_setdefault k v d)).
Proof.
  unfold od_setdefault. destruct (od_contains k d); [done|apply od_set_NoDup].
Qed.

Section one_pair_per_key.
Variable normalize_text : string → option bool → string.

Lemma seed_NoDup case_insensitive text_contents (index : Index) :
  NoDup (od_keys index) →
  NoDup (od_keys (seed normalize_text case_insensitive text_contents index)).
Proof.
  unfold seed. revert index.
  induction text_contents as [|text l IH]; intros index Hd; simpl; [done|].
  by apply IH, od_setdefault_NoDup.
Qed.

Lemma collect_default_NoDup case_insensitive st text_elem st' :
  collect_default normalize_text case_insensitive st text_elem = Return st' →
  NoDup (od_keys st.1) → NoDup (od_keys st'.1).
Proof.
  destruct st as [index default_sequence]. cbn [fst].
  destruct (decide (is_default text_elem)) as [Hd|Hd].
  - destruct (tspans text_elem) as [|tspan l] eqn:Ets.
    + rewrite collect_default_plain by done. intros [= <-]. apply seed_NoDup.
    + rewrite collect_default_tspans by (by rewrite ?Ets). unfold od_getitem.
      destruct (od_get _ index) as [by_id|] eqn:E; [|done].
      intros [= <-] ?. simpl. by apply seed_NoDup, od_set_NoDup.
  - rewrite collect_default_skip by done. by intros [= <-].
Qed.

Lemma switches_NoDup case_insensitive index switches index' :
  for_each (process_switch normalize_text case_insensitive) index switches
    = Return index' →
  NoDup (od_keys index) → NoDup (od_keys index').
Proof.
  intros Hloop Hd. revert Hloop.
  apply (for_each_inv (λ index, NoDup (od_keys index))); [|done].
  intros index1 switch index2 _ Hd1
    (index3 & default_sequence & Hdef & Htr)%process_switch_Return.
  apply (for_each_inv (λ index, od_keys index = od_keys index3) _ _ _ _) in Htr;
    [|by intros ? ? ? _ <- ?%collect_translated_keys|done].
  rewrite Htr.
  apply (for_each_inv (λ st, NoDup (od_keys st.1)) _ _ _ _) in Hdef; [done| |done].
  intros st text_elem st' _ ? ?. by eapply collect_default_NoDup.
Qed.

Lemma extract_tree_phrase_index switches case_insensitive translations :
  extract_tree normalize_text switches case_insensitive = Return translations →
  for_each (process_switch normalize_text case_insensitive) [] switches
    = Return (phrase_index translations) ∧
  NoDup (od_keys (phrase_index translations)) ∧
  title translations = titles (phrase_index translations).
Proof.
  intros (index & Hloop & Hnew & Htitle)%extract_tree_Return.
  assert (phrase_index translations = index) as ->.
  { unfold phrase_index. rewrite Hnew. by destruct index. }
  repeat split; try done.
  eapply switches_NoDup; [done|]. apply NoDup_nil_2.
Qed.
End one_pair_per_key.

(** C6, as the code has it.  The digits of the year are those of
    [str.isdigit], which has more digits than ASCII.  Every title entry comes
    from a key of the completed phrase index that ends in a year shared by
    all its values: it is keyed by that key without its last four
    characters and holds the values without theirs; keys that do not end in
    a shared year give nothing.  Every such key has its title entry, which is
    its own when no other such key has the same stem, and in general that of
    the last such key in the order of the index. *)
Theorem C6_title_entries normalize_text switches case_insensitive translations :
  extract_tree normalize_text switches case_insensitive = Return translations →
  (∀ stem entry,
     title translations !! stem = Some entry →
     ∃ key mapping,
       od_get key (phrase_index translations) = Some mapping ∧
       year_suffixed key mapping ∧
       stem = but_last4 key ∧ entry = but_last4 <$> mapping) ∧
  (∀ key mapping,
     od_get key (phrase_index translations) = Some mapping →
     year_suffixed key mapping →
     is_Some (title translations !! but_last4 key) ∧
     ((∀ key' mapping',
         od_get key' (phrase_index translations) = Some mapping' →
         year_suffixed key' mapping' →
         but_last4 key' = but_last4 key → key' = key) →
      title translations !! but_last4 key = Some (but_last4 <$> mapping))) ∧
  (∀ before key mapping after,
     phrase_index translations = before ++ (key, mapping) :: after →
     year_suffixed key mapping →
     (∀ key' mapping', (key', mapping') ∈ after → year_suffixed key' mapping' →
                       but_last4 key' ≠ but_last4 key) →
     title translations !! but_last4 key = Some (but_last4 <$> mapping)).
Proof.
  intros (_ & Hdup & ->)%extract_tree_phrase_index.
  set (index := phrase_index translations) in *.
  assert (∀ stem entry,
            titles index !! stem = Some entry →
            ∃ key mapping,
              od_get key index = Some mapping ∧ year_suffixed key mapping ∧
              stem = but_last4 key ∧ entry = but_last4 <$> mapping) as Hfrom.
  { intros stem entry (key & mapping & Hin & Hyear & ? & ?)%titles_lookup_Some.
    exists key, mapping. rewrite od_get_elem_of by done.
    by apply has_year_spec in Hyear. }
  split; [done|]. split; last first.
  { intros before key mapping after -> Hyear Hafter.
    apply titles_lookup_last; [by apply has_year_spec|].
    intros key' mapping' ? ?%has_year_spec. by eapply Hafter. }
  intros key mapping Hget Hyear.
  assert (is_Some (titles index !! but_last4 key)) as [entry Hentry].
  { apply titles_is_Some with mapping.
    - by apply od_get_elem_of.
    - by apply has_year_spec. }
  split; [by exists entry|].
  intros Honly. rewrite Hentry.
  destruct (Hfrom _ _ Hentry) as (key' & mapping' & Hget' & Hyear' & Hstem & ->).
  rewrite (Honly key' mapping') in Hget' by done. congruence.
Qed.

Lemma C6_title_entries_witness :
  is_Some (title {| new := Some [("paris2023",
                                  {["fr" := "Paris2023"; "en" := "Paris2023"]})];
                    title := {["paris" := {["fr" := "Paris"; "en" := "Paris"]}]} |}
           !! but_last4 "paris2023").
Proof.
  refine (proj1 (proj1 (proj2 (C6_title_entries spec_normalize_text
                                 doc_paris true _ _))
                   "paris2023" {["fr" := "Paris2023"; "en" := "Paris2023"]} _ _)).
  - by vm_compute.
  - by vm_compute.
  - apply has_year_spec. by vm_compute.
Defined.

(** C6 as stated fails: the last four characters of this key are no ASCII
    digits, and it has a title entry. *)
Lemma C6_year_of_other_digits :
  extract spec_normalize_text (a_file doc_superscript_year) true
    = Return (Some {| new := Some [("x" +:+ superscript_twos, ∅)];
                      title := {["x" := ∅]} |}) ∧
  is_ascii_digits (last4 ("x" +:+ superscript_twos)) = false ∧
  but_last4 ("x" +:+ superscript_twos) = "x".
Proof. by vm_compute. Qed.

(** The two examples of the design document. *)
Example title_of_paris :
  extract spec_normalize_text (a_file doc_paris) true
    = Return (Some {| new := Some [("paris2023",
                                    {["fr" := "Paris2023"; "en" := "Paris2023"]})];
                      title := {["paris" := {["fr" := "Paris"; "en" := "Paris"]}]} |}).
Proof. by vm_compute. Qed.

Example no_title_of_mismatched_year :
  extract spec_normalize_text (a_file doc_paris_mismatch) true
    = Return (Some {| new := Some [("paris2023", {["fr" := "Paris2022"]})];
                      title := ∅ |}).
Proof. by vm_compute. Qed.

(** ** The positional fallback *)


(** ** Trimming and lower-casing twice *)

Lemma lower_char_idemp c : lower_char (lower_char c) = lower_char c.
Proof. by destruct c as [[] [] [] [] [] [] [] []]. Qed.

Lemma lower_idemp s : lower (lower s) = lower s.
Proof.
  unfold lower. rewrite chars_str, <-list_fmap_compose. f_equal.
  apply list_fmap_ext. intros _ c _. apply lower_char_idemp.
Qed.

Lemma lstrip_chars_clean l : starts_clean (lstrip_chars l).
Proof.
  induction l as [|c l IH]; simpl; [done|].
  by destruct (isspace_char c) eqn:E.
Qed.

Lemma lstrip_chars_of_clean l : starts_clean l → lstrip_chars l = l.
Proof. destruct l as [|c l]; simpl; [done|]. by intros ->. Qed.

Lemma lstrip_chars_suffix l : ∃ spaces, l = spaces ++ lstrip_chars l.
Proof.
  induction l as [|c l [spaces IH]]; simpl.
  - by exists [].
  - destruct (isspace_char c).
    + exists (c :: spaces). simpl. by f_equal.
    + by exists [].
Qed.

Lemma starts_clean_app_l l1 l2 : l1 ≠ [] → starts_clean (l1 ++ l2) → starts_clean l1.
Proof. by destruct l1. Qed.

(** The characters of [s.strip()] start and end clean. *)
Lemma strip_clean s :
  ∃ l, strip s = str (rev l) ∧ starts_clean l ∧ starts_clean (rev l).
Proof.
  unfold strip.
  pose proof (lstrip_chars_clean (chars s)) as Hfront.
  set (front := lstrip_chars (chars s)) in *.
  exists (lstrip_chars (rev front)). split; [done|].
  split; [apply lstrip_chars_clean|].
  destruct (lstrip_chars_suffix (rev front)) as [spaces Hsuffix].
  set (back := lstrip_chars (rev front)) in *.
  destruct (decide (rev back = [])) as [->|Hne]; [done|].
  apply starts_clean_app_l with (rev spaces); [done|].
  by rewrite <-rev_app_distr, <-Hsuffix, rev_involutive.
Qed.

Lemma strip_idemp s : strip (strip s) = strip s.
Proof.
  destruct (strip_clean s) as (l & -> & Hl & Hrev).
  unfold strip at 1. rewrite chars_str.
  rewrite (lstrip_chars_of_clean _ Hrev), rev_involutive.
  by rewrite (lstrip_chars_of_clean _ Hl).
Qed.

(** The key that the normalizer of the design document seeds for a trimmed
    text is the text or its lower-cased form. *)
Lemma spec_seed_key_of_stripped case_insensitive text :
  seed_key case_insensitive
    (spec_normalize_text (strip text) (Some case_insensitive))
  = if case_insensitive then lower (strip text) else strip text.
Proof.
  unfold seed_key, spec_normalize_text. rewrite strip_idemp.
  destruct case_insensitive; simpl; [apply lower_idemp|done].
Qed.

(** ** Empty sub-runs *)

Lemma has_store_key_extends index index' english_text :
  extends index index' → has_store_key index english_text →
  has_store_key index' english_text.
Proof. intros ? [?|?]; [left|right]; by eapply extends_keys. Qed.

Lemma has_store_key_get index english_text :
  has_store_key index english_text →
  is_Some (od_get (store_key_of index english_text) index).
Proof.
  intros Hkey. apply od_get_Some_keys. unfold store_key_of.
  destruct (od_contains english_text index) eqn:E.
  - by apply od_contains_keys.
  - apply od_contains_false in E. by destruct Hkey.
Qed.

(** The runs of a default text element are stripped texts of its
    contents. *)
Lemma tspan_runs_text normalize_text case_insensitive ts run :
  run ∈ tspan_runs normalize_text case_insensitive ts →
  ∃ text, run_text run = strip text ∧ strip text ∈ tspan_contents ts.
Proof.
  unfold tspan_runs, tspan_contents.
  intros (tspan & Hin & Hrun)%list_elem_of_omap.
  destruct (truthy (tspan_text tspan)) as [text|] eqn:E; [|done].
  injection Hrun as <-. exists text. split; [done|].
  apply list_elem_of_fmap. exists tspan. by rewrite E.
Qed.

Lemma own_runs_text normalize_text case_insensitive text_elem run :
  run ∈ own_runs normalize_text case_insensitive text_elem →
  ∃ text, run_text run = strip text ∧ strip text ∈ own_contents text_elem.
Proof.
  unfold own_runs, own_contents.
  destruct (truthy (elem_text text_elem)) as [text|]; [|by intros ?%elem_of_nil].
  destruct (strip text) as [|c s] eqn:E; [by intros ?%elem_of_nil|].
  intros ->%list_elem_of_singleton. exists text. simpl.
  split; [done|]. rewrite E. apply list_elem_of_here.
Qed.

(** After the first loop, every run of [default_sequence] has its key in
    the index. *)
Lemma collect_default_has_store_key case_insensitive st text_elem st' :
  collect_default spec_normalize_text case_insensitive st text_elem = Return st' →
  (∀ run, run ∈ st.2 → has_store_key st.1 (run_text run)) →
  ∀ run, run ∈ st'.2 → has_store_key st'.1 (run_text run).
Proof.
  intros Hret Hst run Hrun.
  pose proof (collect_default_extends _ _ _ _ _ Hret) as Hext.
  pose proof (λ k, collect_default_keys _ _ _ _ _ k Hret) as Hkeys.
  assert (run ∈ st.2 ∨
          is_default text_elem ∧
          ∃ text, run_text run = strip text ∧ strip text ∈ text_contents_of text_elem)
    as [Hold|(Hd & text & Htext & Hin)].
  { destruct st as [index default_sequence]. unfold text_contents_of.
    destruct (decide (is_default text_elem)) as [Hd|Hd].
    - destruct (tspans text_elem) as [|tspan l] eqn:Ets.
      + rewrite collect_default_plain in Hret by done. injection Hret as <-.
        simpl in Hrun. apply elem_of_app in Hrun as [?|?%own_runs_text]; auto.
      + rewrite collect_default_tspans in Hret by (by rewrite ?Ets).
        unfold od_getitem in Hret.
        destruct (od_get _ index) as [by_id|]; [|done]. injection Hret as <-.
        simpl in Hrun. rewrite Ets in Hrun.
        apply elem_of_app in Hrun as [?|?%tspan_runs_text]; auto.
    - rewrite collect_default_skip in Hret by done. injection Hret as <-. auto. }
  - eapply has_store_key_extends; [done|]. by apply Hst.
  - rewrite Htext.
    assert (seed_key case_insensitive
              (spec_normalize_text (strip text) (Some case_insensitive))
            ∈ od_keys st'.1) as Hkey.
    { apply Hkeys. right. split; [done|]. by exists (strip text). }
    rewrite spec_seed_key_of_stripped in Hkey.
    destruct case_insensitive; [by right|by left].
Qed.



Lemma enumerate_lookup {A} (l : list A) idx x :
  l !! idx = Some x → enumerate l !! idx = Some (idx, x).
Proof.
  intros Hx. unfold enumerate. apply lookup_zip_with_Some.
  exists idx, x. split; [done|]. split; [|done].
  apply lookup_seq. split; [done|]. by eapply lookup_lt_Some.
Qed.

(** The default sequence leaves out the tspans without text. *)
Lemma tspan_runs_filter normalize_text case_insensitive ts :
  tspan_runs normalize_text case_insensitive ts
  = tspan_runs normalize_text case_insensitive
      (filter (λ tspan, is_truthy (tspan_text tspan) = true) ts).
Proof.
  induction ts as [|tspan ts IH]; [done|].
  destruct (is_truthy (tspan_text tspan)) eqn:E.
  - rewrite filter_cons_True by done. unfold tspan_runs in *.
    cbn [omap list_omap]. by rewrite IH.
  - rewrite filter_cons_False by (by rewrite E). rewrite <-IH.
    unfold tspan_runs, is_truthy in *. cbn [omap list_omap].
    by destruct (truthy (tspan_text tspan)).
Qed.

(** The French translation "Bonjour" of "Hello" is replaced by the empty
    string of a later French text element whose only tspan has no text. *)
Example empty_sub_run_overwrites :
  extract spec_normalize_text (a_file doc_overwritten) true
    = Return (Some {| new := Some [("hello", {["fr" := ""]})]; title := ∅ |}).
Proof. by vm_compute. Qed.

(** * Further properties of [extract] *)

(** ** When extraction returns *)

Lemma for_each_returns_inv {S A} (P : S → Prop) (body : S → A → py S) l s :
  P s →
  (∀ s x, x ∈ l → P s → ∃ s', body s x = Return s' ∧ P s') →
  ∃ s', for_each body s l = Return s' ∧ P s'.
Proof.
  revert s. induction l as [|x l IH]; intros s HP Hbody; simpl; [by exists s|].
  destruct (Hbody s x (list_elem_of_here _ _) HP) as (s1 & -> & HP1). simpl.
  apply IH; [done|]. intros s2 y Hy. apply Hbody. by right.
Qed.

Section key_present.
Variable normalize_text : string → option bool → string.

Lemma od_getitem_present {V} (d : odict V) k :
  k ∈ od_keys d → ∃ v, od_getitem k d = Return v.
Proof.
  intros [v Hv]%od_get_Some_keys. exists v. unfold od_getitem. by rewrite Hv.
Qed.

Lemma collect_default_returns_with_key case_insensitive st text_elem :
  default_tspans_by_id ∈ od_keys st.1 →
  ∃ st', collect_default normalize_text case_insensitive st text_elem = Return st'
         ∧ default_tspans_by_id ∈ od_keys st'.1.
Proof.
  intros Hkey.
  assert (∃ st', collect_default normalize_text case_insensitive st text_elem
                 = Return st') as [st' Hret].
  { destruct st as [index default_sequence].
    destruct (decide (is_default text_elem)).
    - destruct (tspans text_elem) as [|tspan l] eqn:Ets.
      + rewrite collect_default_plain by done. by eexists.
      + rewrite collect_default_tspans by (by rewrite ?Ets).
        destruct (od_getitem_present index default_tspans_by_id Hkey) as [v ->].
        by eexists.
    - rewrite collect_default_skip by done. by eexists. }
  exists st'. split; [done|].
  eapply extends_keys; [|done]. by eapply collect_default_extends.
Qed.

Lemma translated_run_returns_with_key tspans_to_id default_sequence system_lang
    index run :
  default_tspans_by_id ∈ od_keys index →
  ∃ index',
    translated_run normalize_text tspans_to_id default_sequence system_lang
      index run = Return index'
    ∧ default_tspans_by_id ∈ od_keys index'.
Proof.
  intros Hkey.
  assert (∃ index',
            translated_run normalize_text tspans_to_id default_sequence
              system_lang index run = Return index') as [index' Hret].
  { destruct run as [idx text]. unfold translated_run, english_by_id.
    destruct (truthy (base_id_of tspans_to_id text)); [|by eexists].
    destruct (od_getitem_present index default_tspans_by_id Hkey) as [v ->].
    by eexists. }
  exists index'. split; [done|]. by rewrite (translated_run_keys _ _ _ _ _ _ _ Hret).
Qed.

Lemma collect_translated_returns_with_key default_sequence index text_elem :
  default_tspans_by_id ∈ od_keys index →
  ∃ index',
    collect_translated normalize_text default_sequence index text_elem
      = Return index'
    ∧ default_tspans_by_id ∈ od_keys index'.
Proof.
  intros Hkey. unfold collect_translated.
  destruct (truthy (systemLanguage text_elem)) as [system_lang|];
    [|by exists index].
  destruct (match tspans text_elem with [] => _ | _ => _ end)
    as [tspans_to_id text_contents].
  apply (for_each_returns_inv (λ index, default_tspans_by_id ∈ od_keys index));
    [done|].
  intros index1 run _. apply translated_run_returns_with_key.
Qed.

Lemma process_switch_returns_with_key case_insensitive index text_elements :
  default_tspans_by_id ∈ od_keys index →
  ∃ index',
    process_switch normalize_text case_insensitive index text_elements
      = Return index'
    ∧ default_tspans_by_id ∈ od_keys index'.
Proof.
  intros Hkey. unfold process_switch.
  destruct text_elements as [|text_elem l] eqn:E; [by exists index|].
  rewrite <-E in *.
  destruct (for_each_returns_inv
              (λ st : Index * list Run, default_tspans_by_id ∈ od_keys st.1)
              (collect_default normalize_text case_insensitive)
              text_elements (index, []))
    as ([index1 default_sequence] & -> & Hkey1); [done| |].
  { intros st e _. apply collect_default_returns_with_key. }
  rewrite py_bind_Return.
  apply (for_each_returns_inv (λ index, default_tspans_by_id ∈ od_keys index));
    [done|].
  intros index2 e _. apply collect_translated_returns_with_key.
Qed.
End key_present.

(** X1.  The subscript of [default_tspans_by_id] is the only step that can
    fail, and it cannot fail once the key is in [translations["new"]]: from
    an index that has the key, the loop over the switches returns, whatever
    the switches.  So when the switches [before] left the key in the index,
    extraction of any document that starts with them returns. *)
Theorem X1_no_failure_once_key_is_present normalize_text case_insensitive
    index switches :
  default_tspans_by_id ∈ od_keys index →
  (∃ index',
     for_each (process_switch normalize_text case_insensitive) index switches
     = Return index') ∧
  (∀ before,
     for_each (process_switch normalize_text case_insensitive) [] before
       = Return index →
     ∃ translations,
       extract_tree normalize_text (before ++ switches) case_insensitive
       = Return translations).
Proof.
  intros Hkey.
  assert (∃ index',
            for_each (process_switch normalize_text case_insensitive)
              index switches = Return index') as [index' Hret].
  { destruct (for_each_returns_inv
                (λ index, default_tspans_by_id ∈ od_keys index)
                (process_switch normalize_text case_insensitive)
                switches index) as (index' & ? & _); [done| |by exists index'].
    intros index1 switch _. apply process_switch_returns_with_key. }
  split; [by exists index'|].
  intros before Hbefore. unfold extract_tree.
  rewrite for_each_app, Hbefore, py_bind_Return, Hret. by eexists.
Qed.

Lemma X1_no_failure_once_key_is_present_witness :
  ∃ index',
    for_each (process_switch spec_normalize_text true)
      [("default_tspans_by_id", ∅)] doc_cross_reference
    = Return index'.
Proof.
  apply (X1_no_failure_once_key_is_present spec_normalize_text true
           [("default_tspans_by_id", ∅)] doc_cross_reference).
  apply list_elem_of_here.
Defined.

(** ** What extraction keeps *)

(** X2.  Extraction never deletes: every key that the index has after the
    switches [before], and every language recorded under it, is still in
    the phrase index when the whole document has been processed; only the
    value of a language may have been replaced. *)
Theorem X2_index_only_grows normalize_text case_insensitive before after
    index translations :
  for_each (process_switch normalize_text case_insensitive) [] before
    = Return index →
  extract_tree normalize_text (before ++ after) case_insensitive
    = Return translations →
  ∀ k entry,
    od_get k index = Some entry →
    ∃ entry',
      od_get k (phrase_index translations) = Some entry' ∧
      ∀ lang, is_Some (entry !! lang) → is_Some (entry' !! lang).
Proof.
  intros Hbefore (Hloop & _ & _)%extract_tree_phrase_index k entry Hk.
  rewrite for_each_app, Hbefore, py_bind_Return in Hloop.
  apply switches_extends in Hloop.
  destruct (Hloop _ _ Hk) as (entry' & Hk' & Hdom).
  exists entry'. split; [done|].
  intros lang ?%elem_of_dom. by apply elem_of_dom, Hdom.
Qed.

Lemma X2_index_only_grows_witness :
  ∃ entry',
    od_get "hello" (phrase_index
                      {| new := Some [("hello", {["fr" := ""]})]; title := ∅ |})
      = Some entry' ∧
    ∀ lang, is_Some (({["fr" := "Bonjour"]} : gmap string string) !! lang) →
            is_Some (entry' !! lang).
Proof.
  refine (X2_index_only_grows spec_normalize_text true
            [[a_text None (Some "Hello"); a_text (Some "fr") (Some "Bonjour")]]
            [[a_text None (Some "Hello"); a_text_of (Some "fr") [a_tspan None None]]]
            [("hello", {["fr" := "Bonjour"]})] _ _ _ "hello" _ _).
  - by vm_compute.
  - by vm_compute.
  - reflexivity.
Defined.

(** ** Switches without a default text *)

Lemma for_each_fixed {S A} (body : S → A → py S) l s :
  (∀ x, x ∈ l → body s x = Return s) → for_each body s l = Return s.
Proof.
  induction l as [|x l IH]; intros Hbody; simpl; [done|].
  rewrite Hbody by apply list_elem_of_here. simpl.
  apply IH. intros y Hy. apply Hbody. by right.
Qed.

Lemma tspans_to_id_of_without_ids ts :
  (∀ tspan, tspan ∈ ts → truthy (tspan_id tspan) = None) →
  tspans_to_id_of ts = ∅.
Proof.
  intros Hts. unfold tspans_to_id_of.
  replace (omap _ ts) with (@nil (string * string)); [done|].
  induction ts as [|tspan ts IH]; [done|]. cbn [omap list_omap].
  rewrite (Hts tspan) by apply list_elem_of_here.
  rewrite <-IH by (intros t Ht; apply Hts; by right).
  destruct (truthy (tspan_text tspan)) as [text|]; [|done].
  by destruct (truthy (Some (strip text))).
Qed.

Section no_default.
Variable normalize_text : string → option bool → string.

(** Without an identifier and without a default run, a run resolves to
    nothing and is dropped. *)
Lemma translated_run_dropped system_lang index run :
  translated_run normalize_text ∅ [] system_lang index run = Return index.
Proof.
  destruct run as [idx text]. unfold translated_run, base_id_of.
  rewrite lookup_empty. cbn [truthy].
  by rewrite english_by_id_no_base, py_bind_Return.
Qed.

Lemma process_switch_without_default case_insensitive index text_elements :
  (∀ text_elem, text_elem ∈ text_elements → translated_without_ids text_elem) →
  process_switch normalize_text case_insensitive index text_elements
  = Return index.
Proof.
  intros Hall. unfold process_switch.
  destruct text_elements as [|text_elem l] eqn:E; [done|]. rewrite <-E in *.
  rewrite (for_each_fixed _ _ (index, [])), py_bind_Return.
  - apply for_each_fixed. intros e [_ Hids]%Hall. unfold collect_translated.
    destruct (truthy (systemLanguage e)) as [system_lang|]; [|done].
    assert ((match tspans e with
             | [] => (∅, own_contents e)
             | _ :: _ => (tspans_to_id_of (tspans e), tspan_contents (tspans e))
             end).1 = ∅) as Hempty.
    { destruct (tspans e) eqn:Ets; [done|]. simpl. rewrite <-Ets.
      apply tspans_to_id_of_without_ids. by rewrite Ets. }
    destruct (match tspans e with [] => _ | _ => _ end)
      as [tspans_to_id text_contents].
    simpl in Hempty. subst tspans_to_id.
    apply for_each_fixed. intros run _. apply translated_run_dropped.
  - intros e [Hd _]%Hall. by apply collect_default_skip.
Qed.
End no_default.

(** X3.  A switch whose text elements all carry a language, none of them
    with an identifier on a tspan, contributes nothing: there is no default
    run to pair its runs with, its translations are dropped, and the
    document gives the same result with the switch as without it. *)
Theorem X3_switch_without_default_is_dropped normalize_text case_insensitive
    before switch after :
  (∀ text_elem, text_elem ∈ switch → translated_without_ids text_elem) →
  extract_tree normalize_text (before ++ switch :: after) case_insensitive
  = extract_tree normalize_text (before ++ after) case_insensitive.
Proof.
  intros Hall. unfold extract_tree. rewrite !for_each_app.
  destruct (for_each (process_switch normalize_text case_insensitive) [] before)
    as [index|e]; [|done].
  rewrite !py_bind_Return, for_each_cons.
  by rewrite process_switch_without_default, py_bind_Return.
Qed.

Lemma X3_switch_without_default_is_dropped_witness :
  extract_tree spec_normalize_text (doc_hello_hallo ++ doc_no_default) true
  = extract_tree spec_normalize_text (doc_hello_hallo ++ []) true.
Proof.
  apply (X3_switch_without_default_is_dropped spec_normalize_text true
           doc_hello_hallo [a_text (Some "fr") (Some "Bonjour")] []).
  intros text_elem ->%list_elem_of_singleton. split.
  - unfold is_default. by vm_compute.
  - by intros tspan ?%elem_of_nil.
Defined.

(** ** Case-insensitive keys *)

Lemma lower_but_last4 s : lower (but_last4 s) = but_last4 (lower s).
Proof.
  unfold lower, but_last4. rewrite !chars_str, length_fmap. f_equal.
  apply fmap_take.
Qed.

(** X5.  In the case-insensitive mode every key of the phrase index, and
    every key of the title index, is its own lower-cased form, whatever the
    normalizer does. *)
Theorem X5_keys_are_lower_case normalize_text switches translations :
  extract_tree normalize_text switches true = Return translations →
  (∀ k, k ∈ phrase_keys translations → lower k = k) ∧
  (∀ stem, is_Some (title translations !! stem) → lower stem = stem).
Proof.
  intros Hret.
  assert (∀ k, k ∈ phrase_keys translations → lower k = k) as Hkeys.
  { intros k (_ & _ & text & _ & _ & _ & _ & ->)%(extract_tree_keys _ _ _ _ _ Hret).
    apply lower_idemp. }
  split; [done|].
  intros stem [entry Hentry].
  destruct (extract_tree_phrase_index _ _ _ _ Hret) as (_ & _ & Htitle).
  rewrite Htitle in Hentry.
  apply titles_lookup_Some in Hentry as (key & mapping & Hin & _ & -> & _).
  rewrite lower_but_last4. f_equal. apply Hkeys.
  unfold phrase_keys, phrase_index in *.
  destruct (new translations) as [index|]; simpl in *.
  - apply list_elem_of_fmap. by exists (key, mapping).
  - by apply elem_of_nil in Hin.
Qed.

Lemma X5_keys_are_lower_case_witness :
  lower "paris2023" = "paris2023".
Proof.
  refine (proj1 (X5_keys_are_lower_case spec_normalize_text doc_paris _ _)
            "paris2023" _).
  - by vm_compute.
  - apply list_elem_of_here.
Defined.

(** ** Where the values of the index come from *)

Lemma dict_of_acc_lookup_Some (l : list (string * string))
    (m : gmap string string) k v :
  foldl (λ m kv, <[kv.1 := kv.2]> m) m l !! k = Some v →
  m !! k = Some v ∨ (k, v) ∈ l.
Proof.
  revert m. induction l as [|[k0 v0] l IH]; intros m; simpl; [by left|].
  intros [Hm|Hl]%IH.
  - apply lookup_insert_Some in Hm as [[-> ->]|[_ Hm]]; [right; by left|by left].
  - right. by right.
Qed.

Lemma dict_of_lookup_Some l k v : dict_of l !! k = Some v → (k, v) ∈ l.
Proof. by intros [Hm|Hl]%dict_of_acc_lookup_Some. Qed.

Lemma tspans_by_id_of_lookup_Some ts id value :
  tspans_by_id_of ts !! id = Some value →
  ∃ tspan text, tspan ∈ ts ∧ truthy (tspan_text tspan) = Some text ∧
                truthy (tspan_id tspan) = Some id ∧ value = strip text.
Proof.
  intros (tspan & Hin & Hsome)%dict_of_lookup_Some%list_elem_of_omap.
  destruct (truthy (tspan_text tspan)) as [text|] eqn:Etext; [|done].
  destruct (truthy (tspan_id tspan)) as [id'|] eqn:Eid; [|done].
  exists tspan, text. injection Hsome as -> ->. auto.
Qed.

Lemma all_values_setdefault origin index k :
  all_values origin index → all_values origin (od_setdefault k ∅ index).
Proof.
  intros Hall k' entry name value. unfold od_setdefault.
  destruct (od_contains k index); [apply Hall|].
  rewrite od_get_set. case_decide; [by intros [= <-]|apply Hall].
Qed.

Lemma all_values_set origin (index : Index) k entry :
  all_values origin index →
  (∀ name value, entry !! name = Some value → origin k name value) →
  all_values origin (od_set k entry index).
Proof.
  intros Hall Hentry k' entry' name value. rewrite od_get_set.
  case_decide; subst; [intros [= <-]; apply Hentry|apply Hall].
Qed.

Section origins.
Variable normalize_text : string → option bool → string.
Variable origin : string → string → string → Prop.

Lemma all_values_seed case_insensitive text_contents index :
  all_values origin index →
  all_values origin (seed normalize_text case_insensitive text_contents index).
Proof.
  unfold seed. revert index.
  induction text_contents as [|text l IH]; intros index Hall; simpl; [done|].
  by apply IH, all_values_setdefault.
Qed.

Lemma all_values_collect_default case_insensitive st text_elem st' :
  (is_default text_elem →
   ∀ tspan text id,
     tspan ∈ tspans text_elem → truthy (tspan_text tspan) = Some text →
     truthy (tspan_id tspan) = Some id →
     origin default_tspans_by_id id (strip text)) →
  collect_default normalize_text case_insensitive st text_elem = Return st' →
  all_values origin st.1 → all_values origin st'.1.
Proof.
  intros Hids. destruct st as [index default_sequence]. cbn [fst].
  destruct (decide (is_default text_elem)) as [Hd|Hd].
  - destruct (tspans text_elem) as [|tspan l] eqn:Ets.
    + rewrite collect_default_plain by done. intros [= <-] ?.
      by apply all_values_seed.
    + rewrite collect_default_tspans by (by rewrite ?Ets). unfold od_getitem.
      destruct (od_get _ index) as [by_id|] eqn:E; [|done].
      intros [= <-] Hall. cbn [fst]. apply all_values_seed, all_values_set; [done|].
      intros name value. unfold dict_update.
      intros [Hnew|[_ Hold]]%lookup_union_Some_raw.
      * apply tspans_by_id_of_lookup_Some in Hnew
          as (tspan' & text & ? & ? & ? & ->).
        eapply Hids; eauto. by rewrite <-Ets.
      * by eapply Hall.
  - rewrite collect_default_skip by done. by intros [= <-].
Qed.

Lemma all_values_store index system_lang english_text value :
  (∀ k, origin k system_lang value) →
  all_values origin index →
  all_values origin (store index system_lang english_text value).
Proof.
  intros Horigin Hall. unfold store.
  destruct (truthy english_text) as [e|]; [|done].
  destruct (od_get _ index) as [entry|] eqn:E; [|done].
  apply all_values_set; [done|]. intros name value'.
  intros [[<- <-]|[_ Hold]]%lookup_insert_Some; [apply Horigin|by eapply Hall].
Qed.

Lemma all_values_collect_translated default_sequence index text_elem index' :
  (∀ system_lang text k,
     truthy (systemLanguage text_elem) = Some system_lang →
     text ∈ text_contents_of text_elem →
     origin k system_lang (normalize_text text None)) →
  collect_translated normalize_text default_sequence index text_elem
    = Return index' →
  all_values origin index → all_values origin index'.
Proof.
  intros Hlang. unfold collect_translated.
  destruct (truthy (systemLanguage text_elem)) as [system_lang|];
    [|by intros [= <-]].
  assert ((match tspans text_elem with
           | [] => (∅, own_contents text_elem)
           | _ :: _ => (tspans_to_id_of (tspans text_elem),
                        tspan_contents (tspans text_elem))
           end).2 = text_contents_of text_elem) as Hcontents.
  { unfold text_contents_of. by destruct (tspans text_elem). }
  destruct (match tspans text_elem with [] => (_, _) | _ => _ end)
    as [tspans_to_id text_contents]. cbn [snd] in Hcontents. subst text_contents.
  intros Hloop Hall. revert Hloop.
  apply (for_each_inv (all_values origin)); [|done].
  intros index1 [idx text] index2 Hrun Hall1
    (english_text & _ & ->)%translated_run_Return.
  apply all_values_store; [|done].
  intros k. apply Hlang; [done|]. by eapply elem_of_zip_r.
Qed.
End origins.

(** X4.  Nothing in the phrase index is made up.  A value under a language
    is the normalized text of a run of a text element of the document with
    that language; the entry of the key [default_tspans_by_id] may also hold,
    under an identifier, the trimmed text of a default sub-run with that
    identifier. *)
Theorem X4_values_come_from_the_document normalize_text switches
    case_insensitive translations k entry name value :
  extract_tree normalize_text switches case_insensitive = Return translations →
  od_get k (phrase_index translations) = Some entry →
  entry !! name = Some value →
  from_document normalize_text switches k name value.
Proof.
  intros (Hloop & _ & _)%extract_tree_phrase_index Hk Hname.
  assert (all_values (from_document normalize_text switches)
            (phrase_index translations)) as Hall; [|by eapply Hall].
  revert Hloop.
  apply (for_each_inv (all_values (from_document normalize_text switches)));
    [|by intros ? ? ? ? [=]].
  intros index1 switch index2 Hswitch Hall1
    (index3 & default_sequence & Hdef & Htr)%process_switch_Return.
  revert Htr.
  apply (for_each_inv (all_values (from_document normalize_text switches))).
  - intros index4 text_elem index5 Helem Hall4 Hstep.
    refine (all_values_collect_translated _ _ _ _ _ _ _ Hstep Hall4).
    intros system_lang text k' ? ?. left. by exists switch, text_elem, text.
  - refine (for_each_inv
              (λ st, all_values (from_document normalize_text switches) st.1)
              _ _ _ (index3, default_sequence) _ _ Hdef); [|done].
    intros st text_elem st' Helem Hall4 Hstep.
    refine (all_values_collect_default _ _ _ _ _ _ _ Hstep Hall4).
    intros Hd tspan text id ? ? ?. right. split; [done|].
    by exists switch, text_elem, tspan, text.
Qed.

Lemma X4_values_come_from_the_document_witness :
  from_document spec_normalize_text doc_hello_hallo "hello" "de" "Hallo".
Proof.
  refine (X4_values_come_from_the_document spec_normalize_text doc_hello_hallo
            true _ "hello" {["de" := "Hallo"]} "de" "Hallo" _ _ _).
  - by vm_compute.
  - reflexivity.
  - reflexivity.
Defined.

(** ** The default run sequence *)

(** X6.  When the first loop over the text elements of a switch is over,
    [default_sequence] holds the runs of the default text elements in
    document order: the text elements with a language in between add
    nothing and shift no position, and what the index holds plays no part.
    Each run carries its trimmed text and the normalized form of that
    text. *)
Theorem X6_default_sequence_in_document_order normalize_text case_insensitive
    index text_elements index' default_sequence :
  for_each (collect_default normalize_text case_insensitive)
    (index, []) text_elements = Return (index', default_sequence) →
  default_sequence = text_elements ≫= runs_of normalize_text case_insensitive ∧
  ∀ run, run ∈ default_sequence →
    run_normalized run
    = normalize_text (run_text run) (Some case_insensitive).
Proof.
  intros Hloop.
  assert (default_sequence
          = [] ++ (text_elements ≫= runs_of normalize_text case_insensitive))
    as ->.
  { revert Hloop. generalize (@nil Run) as acc. revert index.
    induction text_elements as [|text_elem l IH]; intros index acc.
    - intros [= _ <-]. by rewrite app_nil_r.
    - rewrite for_each_cons, bind_cons, app_assoc.
      assert (∀ st', collect_default normalize_text case_insensitive
                       (index, acc) text_elem = Return st' →
                     st'.2 = acc ++ runs_of normalize_text case_insensitive
                                      text_elem) as Hstep.
      { intros st'. unfold collect_default, runs_of, od_getitem.
        destruct (is_truthy (systemLanguage text_elem));
          [intros [= <-]; by rewrite app_nil_r|].
        destruct (tspans text_elem); [by intros [= <-]|].
        destruct (od_get _ index); [by intros [= <-]|done]. }
      destruct (collect_default _ _ _ text_elem) as [[index1 acc1]|e]; [|done].
      rewrite py_bind_Return, <-(Hstep _ eq_refl). apply IH. }
  split; [done|].
  intros run (text_elem & Hrun & _)%list_elem_of_bind. revert Hrun.
  unfold runs_of, tspan_runs, own_runs.
  destruct (is_truthy (systemLanguage text_elem)); [by intros ?%elem_of_nil|].
  destruct (tspans text_elem) as [|tspan l].
  - destruct (truthy (elem_text text_elem)) as [text|];
      [|by intros ?%elem_of_nil].
    destruct (strip text); [by intros ?%elem_of_nil|].
    by intros ->%list_elem_of_singleton.
  - intros (tspan' & _ & Hsome)%list_elem_of_omap.
    destruct (truthy (tspan_text tspan')); [|done]. by injection Hsome as <-.
Qed.

Lemma X6_default_sequence_in_document_order_witness :
  [mk_run spec_normalize_text None "Hello" true]
  = doc_overwritten !!! 0 ≫= runs_of spec_normalize_text true.
Proof.
  refine (proj1 (X6_default_sequence_in_document_order spec_normalize_text true
                   [] (doc_overwritten !!! 0) [("hello", ∅)] _ _)).
  by vm_compute.
Defined.

(** ** Writing a translation twice *)

Lemma od_set_set {V} (d : odict V) k v1 v2 :
  od_set k v2 (od_set k v1 d) = od_set k v2 d.
Proof.
  induction d as [|[k' v'] d IH]; simpl.
  - by rewrite decide_True.
  - case_decide; simpl.
    + by rewrite decide_True.
    + rewrite decide_False by done. by rewrite IH.
Qed.

Lemma od_contains_set {V} (d : odict V) k v k' :
  k ∈ od_keys d → od_contains k' (od_set k v d) = od_contains k' d.
Proof.
  intros [w Hw]%od_get_Some_keys. unfold od_contains. rewrite od_get_set.
  case_decide; subst; [by rewrite Hw|done].
Qed.

Lemma store_key_of_store index system_lang english_text value english_text' :
  store_key_of (store index system_lang english_text value) english_text'
  = store_key_of index english_text'.
Proof.
  unfold store. destruct (truthy english_text) as [e|]; [|done].
  destruct (od_get _ index) as [entry|] eqn:E; [|done].
  unfold store_key_of. rewrite od_contains_set; [done|].
  apply od_get_Some_keys. by exists entry.
Qed.

(** X9.  Writes of translations compose as assignments do.  A second write
    for the same phrase and language replaces the first, and leaves the
    index as if the first had never happened; two writes for the same phrase
    and different languages give the same index in either order. *)
Theorem X9_last_write_wins index system_lang english_text value1 value2 :
  store (store index system_lang english_text value1)
    system_lang english_text value2
  = store index system_lang english_text value2 ∧
  ∀ system_lang',
    system_lang ≠ system_lang' →
    store (store index system_lang english_text value1)
      system_lang' english_text value2
    = store (store index system_lang' english_text value2)
        system_lang english_text value1.
Proof.
  assert (∀ lang1 lang2 v1 v2,
            store (store index lang1 english_text v1) lang2 english_text v2
            = match truthy english_text with
              | None => index
              | Some e =>
                  match od_get (store_key_of index e) index with
                  | Some entry =>
                      od_set (store_key_of index e)
                        (<[lang2 := v2]> (<[lang1 := v1]> entry)) index
                  | None => index
                  end
              end) as Htwice.
  { intros lang1 lang2 v1 v2. unfold store at 1.
    destruct (truthy english_text) as [e|] eqn:Ee;
      [|unfold store; by rewrite Ee].
    rewrite store_key_of_store. unfold store. rewrite Ee.
    destruct (od_get (store_key_of index e) index) as [entry|] eqn:E.
    - by rewrite od_get_set_eq, od_set_set.
    - by rewrite E. }
  split.
  - rewrite Htwice. unfold store.
    destruct (truthy english_text) as [e|]; [|done].
    destruct (od_get _ index) as [entry|]; [|done].
    by rewrite insert_insert_eq.
  - intros system_lang' Hne. rewrite !Htwice.
    destruct (truthy english_text) as [e|]; [|done].
    destruct (od_get _ index) as [entry|]; [|done].
    by rewrite insert_insert_ne.
Qed.

Lemma X9_last_write_wins_witness :
  store (store [("hello", ∅)] "fr" (Some "Hello") "Salut")
    "de" (Some "Hello") "Hallo"
  = store (store [("hello", ∅)] "de" (Some "Hello") "Hallo")
      "fr" (Some "Hello") "Salut".
Proof.
  refine (proj2 (X9_last_write_wins [("hello", ∅)] "fr" (Some "Hello")
                   "Salut" "Hallo") "de" _).
  done.
Defined.

(** ** A switch of plain text elements *)

Lemma strip_empty : strip "" = "".
Proof. done. Qed.

Lemma content_of_stripped text : strip (content_of text) = content_of text.
Proof.
  unfold content_of. destruct (truthy text); [apply strip_idemp|done].
Qed.

Lemma own_contents_a_text system_lang text :
  own_contents (a_text system_lang text) = [content_of text].
Proof. unfold own_contents, content_of. simpl. by destruct (truthy text). Qed.

Lemma truthy_Some_ne s : s ≠ "" → truthy (Some s) = Some s.
Proof. by destruct s. Qed.

Lemma is_truthy_Some_ne s : s ≠ "" → is_truthy (Some s) = true.
Proof. by destruct s. Qed.

Lemma store_key_of_seeded case_insensitive (text : string)
    (entry : gmap string string) :
  store_key_of [(seed_key case_insensitive text, entry)] text
  = seed_key case_insensitive text.
Proof.
  unfold store_key_of, od_contains, seed_key. simpl.
  destruct case_insensitive; case_decide; congruence.
Qed.

Lemma collect_translated_skip normalize_text default_sequence index text_elem :
  is_default text_elem →
  collect_translated normalize_text default_sequence index text_elem
  = Return index.
Proof.
  unfold is_default, is_truthy, collect_translated.
  by destruct (truthy (systemLanguage text_elem)).
Qed.

Section plain_switch.
Variable case_insensitive : bool.
Variable default_text : string.
Hypothesis default_text_not_blank : strip default_text ≠ "".

Let key := seed_key case_insensitive (strip default_text).
Let default_sequence :=
  [mk_run spec_normalize_text None (strip default_text) case_insensitive].

Lemma plain_switch_default_pass translated :
  Forall (λ p : string * option string, p.1 ≠ "") translated →
  for_each (collect_default spec_normalize_text case_insensitive) ([], [])
    (plain_switch default_text translated)
  = Return ([(key, ∅)], default_sequence).
Proof.
  intros Hlangs. unfold plain_switch. rewrite for_each_cons.
  assert (default_text ≠ "") as Hne by (by intros ->).
  rewrite collect_default_plain by done. rewrite py_bind_Return.
  assert (seed spec_normalize_text case_insensitive
            (own_contents (a_text None (Some default_text))) []
          = [(key, ∅)]) as ->.
  { unfold seed, own_contents. cbn [elem_text a_text].
    rewrite truthy_Some_ne by done. cbn [fmap list_fmap foldl].
    by rewrite spec_seed_key_of_stripped. }
  assert (own_runs spec_normalize_text case_insensitive
            (a_text None (Some default_text)) = default_sequence) as ->.
  { unfold own_runs. cbn [elem_text a_text]. rewrite truthy_Some_ne by done.
    by destruct (strip default_text). }
  apply for_each_fixed.
  intros text_elem ([lang text] & -> & Hin)%list_elem_of_fmap.
  apply collect_default_skip. unfold is_default. cbn [systemLanguage a_text].
  rewrite Forall_forall in Hlangs.
  rewrite is_truthy_Some_ne; [done|]. by apply (Hlangs (lang, text)).
Qed.

Lemma plain_switch_translated_step entry system_lang text :
  system_lang ≠ "" →
  collect_translated spec_normalize_text default_sequence [(key, entry)]
    (a_text (Some system_lang) text)
  = Return [(key, <[system_lang := content_of text]> entry)].
Proof.
  intros Hlang. unfold collect_translated. cbn [systemLanguage tspans a_text].
  rewrite truthy_Some_ne by done. rewrite own_contents_a_text.
  unfold enumerate. cbn [length seq zip zip_with for_each].
  unfold translated_run, base_id_of. rewrite lookup_empty. cbn [truthy].
  rewrite english_by_id_no_base, py_bind_Return by done.
  unfold english_by_position, default_sequence.
  cbn [is_truthy truthy negb andb length Nat.ltb Nat.leb lookup list_lookup
       fmap option_fmap option_map run_text mk_run].
  rewrite py_bind_Return. unfold store.
  rewrite truthy_Some_ne by done. unfold key.
  rewrite store_key_of_seeded. cbn [od_get].
  rewrite decide_True by done. cbn [od_set]. rewrite decide_True by done.
  unfold spec_normalize_text. cbn [default]. by rewrite content_of_stripped.
Qed.

Lemma plain_switch_translated_pass translated entry :
  Forall (λ p : string * option string, p.1 ≠ "") translated →
  for_each (collect_translated spec_normalize_text default_sequence)
    [(key, entry)] ((λ p, a_text (Some p.1) p.2) <$> translated)
  = Return [(key, foldl (λ m kv, <[kv.1 := kv.2]> m) entry
                    ((λ p, (p.1, content_of p.2)) <$> translated))].
Proof.
  intros Hlangs. revert entry.
  induction Hlangs as [|[lang text] l Hlang _ IH]; intros entry; [done|].
  rewrite !fmap_cons, for_each_cons.
  rewrite plain_switch_translated_step, py_bind_Return by done.
  apply IH.
Qed.
End plain_switch.

(** X7.  A document of one switch, with one default text element whose text
    is not blank and translated text elements without tspans, gives one
    phrase: the trimmed default text, lower-cased in the case-insensitive
    mode, with the trimmed text of every translated element under its
    language (the empty string for an element without text).  Where a
    language occurs twice the later element wins. *)
Theorem X7_switch_of_plain_texts case_insensitive default_text translated :
  strip default_text ≠ "" →
  Forall (λ p : string * option string, p.1 ≠ "") translated →
  extract_tree spec_normalize_text [plain_switch default_text translated]
    case_insensitive
  = Return
      {| new :=
           Some [(seed_key case_insensitive (strip default_text),
                  dict_of ((λ p, (p.1, content_of p.2)) <$> translated))];
         title :=
           titles [(seed_key case_insensitive (strip default_text),
                    dict_of ((λ p, (p.1, content_of p.2)) <$> translated))] |}.
Proof.
  intros Hd Hlangs.
  assert (process_switch spec_normalize_text case_insensitive []
            (plain_switch default_text translated)
          = Return [(seed_key case_insensitive (strip default_text),
                     dict_of ((λ p, (p.1, content_of p.2)) <$> translated))])
    as Hswitch.
  { unfold process_switch.
    destruct (plain_switch default_text translated) as [|e l] eqn:E; [done|].
    rewrite <-E. rewrite plain_switch_default_pass, py_bind_Return by done.
    unfold plain_switch. rewrite for_each_cons.
    rewrite collect_translated_skip, py_bind_Return by done.
    by rewrite plain_switch_translated_pass. }
  unfold extract_tree. rewrite for_each_cons, Hswitch. done.
Qed.

Lemma X7_switch_of_plain_texts_witness :
  extract_tree spec_normalize_text
    [plain_switch " Hello " [("de", Some " Hallo "); ("fr", None)]] false
  = Return {| new := Some [("Hello", {["de" := "Hallo"; "fr" := ""]})];
              title := ∅ |}.
Proof.
  etrans.
  - apply (X7_switch_of_plain_texts false " Hello "
             [("de", Some " Hallo "); ("fr", None)]).
    + by vm_compute.
    + repeat constructor; by vm_compute.
  - by vm_compute.
Defined.

(** ** Titles and their years *)

Lemma chars_append s1 s2 : chars (s1 +:+ s2) = chars s1 ++ chars s2.
Proof. induction s1 as [|c s1 IH]; simpl; [done|]. by f_equal. Qed.

Lemma but_last4_last4 s : but_last4 s +:+ last4 s = s.
Proof.
  apply chars_inj. unfold but_last4, last4.
  rewrite chars_append, !chars_str. apply take_drop.
Qed.

Lemma but_last4_long s : 4 < len s → but_last4 s ≠ "".
Proof.
  unfold len, but_last4. intros Hlen E.
  apply (f_equal chars) in E. rewrite chars_str in E.
  apply (f_equal length) in E. rewrite length_take in E. simpl in E. lia.
Qed.

(** X8.  Putting the year back restores the phrase.  A title entry is never
    keyed by the empty string; its key followed by some four digits is a
    key of the phrase index, the entry has the languages of that phrase, and
    each of its values followed by the same four digits is the translation
    the phrase index holds. *)
Theorem X8_title_plus_year_is_phrase normalize_text switches case_insensitive
    translations stem entry :
  extract_tree normalize_text switches case_insensitive = Return translations →
  title translations !! stem = Some entry →
  stem ≠ "" ∧
  ∃ year mapping,
    len year = 4 ∧ isdigit year = true ∧
    od_get (stem +:+ year) (phrase_index translations) = Some mapping ∧
    (∀ lang, is_Some (entry !! lang) ↔ is_Some (mapping !! lang)) ∧
    (∀ lang value, entry !! lang = Some value →
                   mapping !! lang = Some (value +:+ year)).
Proof.
  intros (_ & Hdup & ->)%extract_tree_phrase_index
    (key & mapping & Hin & (Hlen & Hdigit & Hvalues)%has_year_spec & -> & ->)
      %titles_lookup_Some.
  split; [by apply but_last4_long|].
  exists (last4 key), mapping. rewrite but_last4_last4. repeat split.
  - rewrite len_last4. lia.
  - done.
  - by apply od_get_elem_of.
  - rewrite lookup_fmap. by intros ?%fmap_is_Some.
  - rewrite lookup_fmap. intros ?. by apply fmap_is_Some.
  - intros lang value. rewrite lookup_fmap.
    destruct (mapping !! lang) as [value'|] eqn:E; [|done].
    intros [= <-]. by rewrite <-(Hvalues _ _ E), but_last4_last4.
Qed.

Lemma X8_title_plus_year_is_phrase_witness :
  "paris" ≠ "" ∧
  ∃ year mapping,
    len year = 4 ∧ isdigit year = true ∧
    od_get ("paris" +:+ year)
      (phrase_index
         {| new := Some [("paris2023",
                          {["fr" := "Paris2023"; "en" := "Paris2023"]})];
            title := {["paris" := {["fr" := "Paris"; "en" := "Paris"]}]} |})
      = Some mapping ∧
    (∀ lang, is_Some (({["fr" := "Paris"; "en" := "Paris"]}
                         : gmap string string) !! lang)
             ↔ is_Some (mapping !! lang)) ∧
    (∀ lang value,
       ({["fr" := "Paris"; "en" := "Paris"]} : gmap string string) !! lang
         = Some value →
       mapping !! lang = Some (value +:+ year)).
Proof.
  refine (X8_title_plus_year_is_phrase spec_normalize_text doc_paris true
            _ "paris" _ _ _).
  - by vm_compute.
  - by vm_compute.
Defined.

(** ** Exactly when extraction fails *)

(** In a loop that returns, the body has returned for every element, from
    a state that satisfies every invariant of the loop. *)
Lemma for_each_inv_elem {S A} (P : S → Prop) (body : S → A → py S) l s s' :
  (∀ s x s', x ∈ l → P s → body s x = Return s' → P s') →
  P s → for_each body s l = Return s' →
  ∀ x, x ∈ l → ∃ s1 s2, P s1 ∧ body s1 x = Return s2.
Proof.
  revert s. induction l as [|y l IH]; intros s Hstep HP Hloop x Hx.
  - by apply elem_of_nil in Hx.
  - rewrite for_each_cons in Hloop.
    destruct (body s y) as [s1|e] eqn:E; [|done].
    rewrite py_bind_Return in Hloop.
    apply elem_of_cons in Hx as [->|Hx]; [by exists s, s1|].
    eapply (IH s1); [|by eapply Hstep; [left|..]|done..].
    intros ? ? ? ?. apply Hstep. by right.
Qed.

Lemma for_each_Raise {S A} (body : S → A → py S) l s e :
  for_each body s l = Raise e → ∃ s1 x, x ∈ l ∧ body s1 x = Raise e.
Proof.
  revert s. induction l as [|y l IH]; intros s; [done|].
  rewrite for_each_cons. destruct (body s y) as [s1|e'] eqn:E.
  - rewrite py_bind_Return. intros (s2 & x & ? & ?)%IH.
    exists s2, x. split; [by right|done].
  - intros [= ->]. exists s, y. split; [by left|done].
Qed.

Section failure.
Variable normalize_text : string → option bool → string.
Variable case_insensitive : bool.

Lemma collect_default_Raise st text_elem e :
  collect_default normalize_text case_insensitive st text_elem = Raise e →
  e = KeyError default_tspans_by_id.
Proof.
  destruct st as [index default_sequence].
  unfold collect_default, od_getitem.
  destruct (is_truthy _); [done|]. destruct (tspans text_elem); [done|].
  destruct (od_get _ index); [done|]. by intros [= <-].
Qed.

Lemma translated_run_Raise tspans_to_id default_sequence system_lang index run e :
  translated_run normalize_text tspans_to_id default_sequence system_lang
    index run = Raise e →
  e = KeyError default_tspans_by_id.
Proof.
  destruct run as [idx text]. unfold translated_run, english_by_id, od_getitem.
  destruct (truthy (base_id_of _ _)); [|done].
  destruct (od_get _ index); [done|]. by intros [= <-].
Qed.

Lemma collect_translated_Raise default_sequence index text_elem e :
  collect_translated normalize_text default_sequence index text_elem = Raise e →
  e = KeyError default_tspans_by_id.
Proof.
  unfold collect_translated.
  destruct (truthy (systemLanguage text_elem)); [|done].
  destruct (match tspans text_elem with [] => (_, _) | _ => _ end).
  intros (? & ? & _ & ?%translated_run_Raise)%for_each_Raise. done.
Qed.

Lemma process_switch_Raise index text_elements e :
  process_switch normalize_text case_insensitive index text_elements = Raise e →
  e = KeyError default_tspans_by_id.
Proof.
  unfold process_switch. destruct text_elements as [|text_elem l] eqn:E; [done|].
  rewrite <-E.
  destruct (for_each (collect_default _ _) _ _) as [[index1 ds]|e'] eqn:Hdef.
  - rewrite py_bind_Return.
    intros (? & ? & _ & ?%collect_translated_Raise)%for_each_Raise. done.
  - intros [= ->].
    apply for_each_Raise in Hdef as (? & ? & _ & ?%collect_default_Raise). done.
Qed.

Lemma extract_tree_Raise switches e :
  extract_tree normalize_text switches case_insensitive = Raise e →
  e = KeyError default_tspans_by_id.
Proof.
  unfold extract_tree.
  destruct (for_each (process_switch _ _) _ _) as [index|e'] eqn:Hloop; [done|].
  intros [= ->].
  apply for_each_Raise in Hloop as (? & ? & _ & ?%process_switch_Raise). done.
Qed.

(** A text element that does not consult the map is processed without
    failure, in both loops. *)
Lemma collect_default_returns_without_map st text_elem :
  ¬ consults_map text_elem →
  ∃ st', collect_default normalize_text case_insensitive st text_elem = Return st'.
Proof.
  intros Hno. destruct st as [index default_sequence].
  destruct (decide (is_default text_elem)) as [Hd|Hd].
  - rewrite collect_default_plain; [by eexists|done|].
    unfold consults_map in Hno. rewrite Hd in Hno.
    by destruct (tspans text_elem); [|destruct Hno].
  - rewrite collect_default_skip by done. by eexists.
Qed.

Lemma collect_translated_returns_without_map default_sequence index text_elem :
  ¬ consults_map text_elem →
  ∃ index',
    collect_translated normalize_text default_sequence index text_elem
    = Return index'.
Proof.
  intros Hno. unfold collect_translated, consults_map, is_truthy in *.
  destruct (truthy (systemLanguage text_elem)) as [system_lang|]; [|by eexists].
  destruct (tspans text_elem) as [|tspan l] eqn:Ets.
  - apply for_each_returns. intros index1 [idx text] _.
    unfold translated_run, base_id_of. rewrite lookup_empty.
    rewrite english_by_id_no_base by done. by eexists.
  - rewrite <-Ets in *. apply for_each_returns. intros index1 [idx text] Hin.
    apply elem_of_zip_r in Hin. unfold translated_run.
    rewrite english_by_id_no_base; [by eexists|].
    destruct (truthy (base_id_of _ text)) eqn:E; [|done].
    destruct Hno. exists text. by rewrite E.
Qed.

Lemma process_switch_returns_without_map index text_elements :
  (∀ text_elem, text_elem ∈ text_elements → ¬ consults_map text_elem) →
  ∃ index',
    process_switch normalize_text case_insensitive index text_elements
    = Return index'.
Proof.
  intros Hno. unfold process_switch.
  destruct text_elements as [|text_elem l] eqn:E; [by eexists|].
  rewrite <-E in *.
  destruct (for_each_returns (collect_default normalize_text case_insensitive)
              text_elements (index, [])) as [[index1 default_sequence] ->].
  { intros st e He. by apply collect_default_returns_without_map, Hno. }
  rewrite py_bind_Return. apply for_each_returns. intros index2 e He.
  by apply collect_translated_returns_without_map, Hno.
Qed.

(** A text element that consults the map fails when the index has no key
    for it. *)
Lemma collect_translated_raises_without_key default_sequence index text_elem :
  ¬ is_default text_elem → consults_map text_elem →
  (∀ (index' : Index), od_keys index' = od_keys index → default_tspans_by_id ∉ od_keys index') →
  ∀ index',
    collect_translated normalize_text default_sequence index text_elem
    ≠ Return index'.
Proof.
  unfold is_default, consults_map, collect_translated, is_truthy.
  destruct (truthy (systemLanguage text_elem)) as [system_lang|]; [|done].
  intros _ (text & Hin & Hbase) Hkey index' Hret.
  destruct (tspans text_elem) as [|tspan l] eqn:Ets;
    [by apply elem_of_nil in Hin|].
  rewrite <-Ets in *.
  apply list_elem_of_lookup in Hin as [idx Hidx].
  apply enumerate_lookup, list_elem_of_lookup_2 in Hidx.
  destruct (for_each_inv_elem (λ index1, od_keys index1 = od_keys index)
              _ _ _ _ (λ _ _ _ _ Heq Hrun,
                         eq_trans (translated_run_keys _ _ _ _ _ _ _ Hrun) Heq)
              eq_refl Hret _ Hidx) as (index1 & index2 & Hkeys & Hrun).
  unfold translated_run in Hrun.
  rewrite english_by_id_raises in Hrun; [done|exact Hbase|].
  by apply od_get_None_keys, Hkey.
Qed.
End failure.

(** X10.  Two conditions on a document, one under which [extract] returns
    and one under which it fails.  A document none of whose text elements
    consults the identifier map is extracted without failure.  A document
    with a text element that consults it, be it a default text element with
    tspans or a translated sub-run with an identifier, and none of whose
    default texts seeds the key [default_tspans_by_id], makes extraction
    raise [KeyError] for that key.  The two conditions leave out the
    documents that both consult the map and seed the key: there the order of
    the text elements decides. *)
Theorem X10_failure_and_the_identifier_map normalize_text switches
    case_insensitive :
  (¬ document_consults_map switches →
   ∃ translations,
     extract_tree normalize_text switches case_insensitive
     = Return translations) ∧
  (document_consults_map switches →
   ¬ seeded_by normalize_text case_insensitive switches default_tspans_by_id →
   extract_tree normalize_text switches case_insensitive
   = Raise (KeyError default_tspans_by_id)).
Proof.
  split.
  - intros Hno. unfold extract_tree.
    destruct (for_each_returns
                (process_switch normalize_text case_insensitive) switches [])
      as [index ->]; [|by eexists].
    intros index switch Hswitch. apply process_switch_returns_without_map.
    intros e He Hc. apply Hno. by exists switch, e.
  - intros (switch & text_elem & Hswitch & Helem & Hconsults) Hseed.
    destruct (extract_tree normalize_text switches case_insensitive)
      as [translations|e] eqn:Hret;
      [|by rewrite (extract_tree_Raise _ _ _ _ Hret)].
    exfalso.
    apply extract_tree_Return in Hret as (index & Hloop & _).
    set (no_key := λ index : Index, default_tspans_by_id ∉ od_keys index).
    assert (∀ st e st',
              e ∈ switch → no_key st.1 →
              collect_default normalize_text case_insensitive st e = Return st' →
              no_key st'.1) as Hdefault_step.
    { intros st e st' He Hst Hstep Hin.
      apply (collect_default_keys _ _ _ _ _ _ Hstep) in Hin
        as [?|(? & text & ? & ?)]; [done|].
      apply Hseed. by exists switch, e, text. }
    assert (∀ index1 sw index2,
              sw ∈ switches → no_key index1 →
              process_switch normalize_text case_insensitive index1 sw
                = Return index2 →
              no_key index2) as Hswitch_step.
    { intros index1 sw index2 Hsw Hno Hstep Hin.
      apply (process_switch_keys _ _ _ _ _ _ Hstep) in Hin
        as [?|(e & ? & ? & text & ? & ?)]; [done|].
      apply Hseed. by exists sw, e, text. }
    assert (no_key []) as Hno0 by apply not_elem_of_nil.
    destruct (for_each_inv_elem no_key _ _ _ _ Hswitch_step Hno0 Hloop
                _ Hswitch) as (index1 & index2 & Hno1 & Hprocess).
    apply process_switch_Return in Hprocess
      as (index3 & default_sequence & Hdef & Htr).
    destruct (decide (is_default text_elem)) as [Hd|Hd].
    + destruct (for_each_inv_elem (λ st, no_key st.1) _ _ (index1, []) _
                  Hdefault_step Hno1 Hdef _ Helem)
        as ([index4 ds4] & st5 & Hno4 & Hstep).
      rewrite collect_default_raises in Hstep; [done..| |].
      * unfold consults_map in Hconsults. by rewrite Hd in Hconsults.
      * by apply od_get_None_keys.
    + assert (no_key index3) as Hno3.
      { exact (for_each_inv (λ st, no_key st.1) _ _ (index1, [])
                 (index3, default_sequence) Hdefault_step Hno1 Hdef). }
      assert (∀ index4 e index5,
                e ∈ switch → od_keys index4 = od_keys index3 →
                collect_translated normalize_text default_sequence index4 e
                  = Return index5 →
                od_keys index5 = od_keys index3) as Htranslated_step.
      { intros index4 e index5 _ <- Hstep.
        by eapply collect_translated_keys. }
      destruct (for_each_inv_elem (λ index4, od_keys index4 = od_keys index3)
                  _ _ _ _ Htranslated_step eq_refl Htr _ Helem)
        as (index4 & index5 & Hkeys & Hstep).
      eapply collect_translated_raises_without_key; [done..| |exact Hstep].
      intros index' Heq. unfold no_key in Hno3. by rewrite Heq, Hkeys.
Qed.

Lemma X10_failure_and_the_identifier_map_witness :
  extract_tree spec_normalize_text doc_translated_id true
  = Raise (KeyError default_tspans_by_id).
Proof.
  refine (proj2 (X10_failure_and_the_identifier_map spec_normalize_text
                   doc_translated_id true) _ _).
  - exists (doc_translated_id !!! 0),
      (a_text_of (Some "fr") [a_tspan (Some "id1-fr") (Some "Bonjour")]).
    split; [apply list_elem_of_here|].
    split; [apply list_elem_of_further, list_elem_of_here|].
    exists "Bonjour". split; [apply list_elem_of_here|by vm_compute].
  - intros (switch & text_elem & text & Hswitch & Helem & _ & Htext & Hkey).
    apply list_elem_of_singleton in Hswitch as ->.
    apply elem_of_cons in Helem as [->|Helem].
    + apply list_elem_of_singleton in Htext as ->. by vm_compute in Hkey.
    + apply list_elem_of_singleton in Helem as ->.
      apply list_elem_of_singleton in Htext as ->. by vm_compute in Hkey.
Defined.

(** ** Edge cases *)

(** X11.  A phrase that ends in four digits and has no translation at all
    gets a title entry all the same, an empty one: the test on the values
    of line 147 holds of no value.  (Stated for a phrase whose stem no other
    key that ends in a shared year has.) *)
Theorem X11_title_of_untranslated_year normalize_text switches
    case_insensitive translations key :
  extract_tree normalize_text switches case_insensitive = Return translations →
  od_get key (phrase_index translations) = Some ∅ →
  4 < len key → isdigit (last4 key) = true →
  (∀ key' mapping',
     (key', mapping') ∈ phrase_index translations →
     has_year key' mapping' = true →
     but_last4 key' = but_last4 key → key' = key) →
  title translations !! but_last4 key = Some ∅.
Proof.
  intros (_ & Hdup & ->)%extract_tree_phrase_index Hget Hlen Hdigit Honly.
  assert (has_year key ∅ = true) as Hyear.
  { apply has_year_spec. by repeat split. }
  destruct (titles_is_Some (phrase_index translations) key ∅)
    as [entry Hentry]; [by apply od_get_elem_of|done|].
  rewrite Hentry.
  apply titles_lookup_Some in Hentry as (key' & mapping' & Hin & Hyear' & Hstem & ->).
  rewrite (Honly key' mapping') in Hin by done.
  apply od_get_elem_of in Hin; [|done].
  assert (mapping' = ∅) as -> by congruence. by rewrite fmap_empty.
Qed.

Lemma X11_title_of_untranslated_year_witness :
  title {| new := Some [("paris2023", ∅)]; title := {["paris" := ∅]} |}
    !! but_last4 "paris2023" = Some ∅.
Proof.
  refine (X11_title_of_untranslated_year spec_normalize_text
            [[a_text None (Some "Paris2023")]] true _ "paris2023" _ _ _ _ _).
  - by vm_compute.
  - reflexivity.
  - vm_compute. lia.
  - reflexivity.
  - intros key' mapping' Hin _ _. cbn [phrase_index new default] in Hin.
    apply list_elem_of_singleton in Hin. by injection Hin as -> ->.
Defined.

Lemma for_each_fmap {S A B} (body : S → B → py S) (f : A → B) l s :
  for_each body s (f <$> l) = for_each (λ s x, body s (f x)) s l.
Proof.
  revert s. induction l as [|x l IH]; intros s; [done|].
  rewrite fmap_cons, !for_each_cons. destruct (body s (f x)); [|done].
  rewrite !py_bind_Return. apply IH.
Qed.

Lemma for_each_ext {S A} (body1 body2 : S → A → py S) l s :
  (∀ s x, body1 s x = body2 s x) → for_each body1 s l = for_each body2 s l.
Proof.
  intros Hext. revert s. induction l as [|x l IH]; intros s; [done|].
  rewrite !for_each_cons, Hext. destruct (body2 s x); [|done].
  rewrite !py_bind_Return. apply IH.
Qed.

Lemma truthy_without_empty_language text_elem :
  truthy (systemLanguage (without_empty_language text_elem))
  = truthy (systemLanguage text_elem).
Proof.
  unfold without_empty_language.
  destruct (systemLanguage text_elem) as [[|c s]|] eqn:E; simpl;
    by rewrite ?E.
Qed.

Lemma tspans_without_empty_language text_elem :
  tspans (without_empty_language text_elem) = tspans text_elem.
Proof.
  unfold without_empty_language.
  by destruct (systemLanguage text_elem) as [[|c s]|].
Qed.

Lemma elem_text_without_empty_language text_elem :
  elem_text (without_empty_language text_elem) = elem_text text_elem.
Proof.
  unfold without_empty_language.
  by destruct (systemLanguage text_elem) as [[|c s]|].
Qed.

(** X12.  An empty [systemLanguage] attribute counts as none: the text
    element is treated as a default one, and the document gives the same
    result, or the same failure, as the document with these attributes
    taken off. *)
Theorem X12_empty_language_is_default normalize_text (switches : Document)
    case_insensitive :
  extract_tree normalize_text
    ((λ switch : Switch, without_empty_language <$> switch) <$> switches)
    case_insensitive
  = extract_tree normalize_text switches case_insensitive.
Proof.
  unfold extract_tree. f_equal. rewrite for_each_fmap. apply for_each_ext.
  intros index switch. unfold process_switch.
  destruct switch as [|text_elem l]; [done|].
  rewrite fmap_cons. cbv iota beta. rewrite <-fmap_cons.
  generalize (text_elem :: l) as text_elements. intros text_elements.
  rewrite !for_each_fmap.
  rewrite (for_each_ext _ (collect_default normalize_text case_insensitive)).
  - destruct (for_each _ _ _) as [[index1 default_sequence]|e]; [|done].
    rewrite !py_bind_Return, for_each_fmap. apply for_each_ext.
    intros index2 e. unfold collect_translated, own_contents.
    by rewrite truthy_without_empty_language, tspans_without_empty_language,
      elem_text_without_empty_language.
  - intros [index1 default_sequence] e.
    unfold collect_default, is_truthy, own_contents, own_runs.
    by rewrite truthy_without_empty_language, tspans_without_empty_language,
      elem_text_without_empty_language.
Qed.

(** ** Resolution by identifier *)

(** X13.  A run whose text has an identifier with a base that the
    identifier map knows, as it is or lower-cased, resolves to the default
    text of the map whatever its position and whatever the default sequence
    holds: the position only counts when the map gives nothing. *)
Theorem X13_identifier_beats_position normalize_text tspans_to_id system_lang
    index text by_id id english_text :
  od_get default_tspans_by_id index = Some by_id →
  tspans_to_id !! strip text = Some id → id ≠ "" →
  strip (split_dash_0 id) ≠ "" →
  py_or (by_id !! strip (split_dash_0 id))
        (by_id !! lower (strip (split_dash_0 id))) = Some english_text →
  english_text ≠ "" →
  ∀ default_sequence idx,
    translated_run normalize_text tspans_to_id default_sequence system_lang
      index (idx, text)
    = Return (store index system_lang (Some english_text)
                (normalize_text text None)).
Proof.
  intros Hmap Hid Hid_ne Hbase Hor Henglish default_sequence idx.
  unfold translated_run, base_id_of, english_by_id, od_getitem.
  rewrite Hid. rewrite (truthy_Some_ne id) by done.
  rewrite (truthy_Some_ne _ Hbase), Hmap, !py_bind_Return, Hor.
  unfold english_by_position.
  by rewrite (is_truthy_Some_ne _ Henglish).
Qed.

Lemma X13_identifier_beats_position_witness :
  translated_run spec_normalize_text {["Bonjour" := "a-fr"]}
    [mk_run spec_normalize_text None "World" true] "fr"
    [("default_tspans_by_id", {["a" := "Hello"]}); ("hello", ∅); ("world", ∅)]
    (0, "Bonjour")
  = Return (store [("default_tspans_by_id", {["a" := "Hello"]});
                   ("hello", ∅); ("world", ∅)]
              "fr" (Some "Hello") (spec_normalize_text "Bonjour" None)).
Proof.
  refine (X13_identifier_beats_position spec_normalize_text
            {["Bonjour" := "a-fr"]} "fr" _ "Bonjour" {["a" := "Hello"]} "a-fr"
            "Hello" _ _ _ _ _ _ _ 0).
  - reflexivity.
  - reflexivity.
  - done.
  - by vm_compute.
  - reflexivity.
  - done.
Defined.

(** ** One run in the course of an extraction *)

Lemma for_each_split {S A} (body : S → A → py S) l1 x l2 s s' :
  for_each body s (l1 ++ x :: l2) = Return s' →
  ∃ s1 s2,
    for_each body s l1 = Return s1 ∧ body s1 x = Return s2 ∧
    for_each body s2 l2 = Return s'.
Proof.
  rewrite for_each_app.
  destruct (for_each body s l1) as [s1|e] eqn:E1; [|done].
  rewrite py_bind_Return, for_each_cons.
  destruct (body s1 x) as [s2|e] eqn:E2; [|done]. rewrite py_bind_Return.
  intros ?. by exists s1, s2.
Qed.

Lemma lower_not_empty s : lower s = "" → s = "".
Proof.
  destruct s as [|c s]; [done|]. intros H%(f_equal chars).
  unfold lower in H. rewrite chars_str in H. by simpl in H.
Qed.

Section course.
Variable normalize_text : string → option bool → string.

Lemma collect_default_pass_extends case_insensitive st text_elements st' :
  for_each (collect_default normalize_text case_insensitive) st text_elements
    = Return st' →
  extends st.1 st'.1.
Proof.
  intros Hloop.
  refine (for_each_inv (λ s, extends st.1 s.1) _ _ _ _ _ _ Hloop).
  - intros s x s' _ Hext Hstep. eapply extends_trans; [done|].
    by eapply collect_default_extends.
  - apply extends_refl.
Qed.

Lemma collect_translated_pass_extends default_sequence index text_elements index' :
  for_each (collect_translated normalize_text default_sequence) index
    text_elements = Return index' →
  extends index index'.
Proof.
  intros Hloop.
  refine (for_each_inv (λ s, extends index s) _ _ _ _ _ _ Hloop).
  - intros s x s' _ Hext Hstep. eapply extends_trans; [done|].
    by eapply collect_translated_extends.
  - apply extends_refl.
Qed.

Lemma translated_runs_extends tspans_to_id default_sequence system_lang
    index runs index' :
  for_each (translated_run normalize_text tspans_to_id default_sequence
              system_lang) index runs = Return index' →
  extends index index'.
Proof.
  intros Hloop.
  refine (for_each_inv (λ s, extends index s) _ _ _ _ _ _ Hloop).
  - intros s x s' _ Hext Hstep. eapply extends_trans; [done|].
    by eapply translated_run_extends.
  - apply extends_refl.
Qed.



(** The loop of line 110, for a text element with a language. *)
Lemma collect_translated_runs default_sequence index text_elem system_lang :
  truthy (systemLanguage text_elem) = Some system_lang →
  collect_translated normalize_text default_sequence index text_elem
  = for_each (translated_run normalize_text (tspans_to_id_for text_elem)
                default_sequence system_lang)
      index (enumerate (text_contents_of text_elem)).
Proof.
  intros Hlang. unfold collect_translated, tspans_to_id_for, text_contents_of.
  rewrite Hlang. by destruct (tspans text_elem).
Qed.

(** An extraction that returns has gone through every run of every text
    element with a language. *)
Lemma extract_tree_at_run case_insensitive before group_before text_elem
    group_after after system_lang runs_before run runs_after translations :
  extract_tree normalize_text
    (before ++ (group_before ++ text_elem :: group_after) :: after)
    case_insensitive = Return translations →
  truthy (systemLanguage text_elem) = Some system_lang →
  enumerate (text_contents_of text_elem) = runs_before ++ run :: runs_after →
  ∃ default_sequence index index',
    reaches_run normalize_text case_insensitive before group_before text_elem
      group_after system_lang runs_before default_sequence index ∧
    translated_run normalize_text (tspans_to_id_for text_elem)
      default_sequence system_lang index run = Return index' ∧
    finishes_from normalize_text case_insensitive text_elem group_after after
      system_lang runs_after default_sequence index'
      (phrase_index translations).
Proof.
  intros (Hloop & _ & _)%extract_tree_phrase_index Hlang Hruns.
  apply for_each_split in Hloop as (index0 & index5 & Hbefore & Hswitch & Hafter).
  apply process_switch_Return in Hswitch as (index1 & ds & Hdef & Htrans).
  apply for_each_split in Htrans as (index2 & index4 & Hgb & He & Hga).
  rewrite (collect_translated_runs _ _ _ _ Hlang), Hruns in He.
  apply for_each_split in He as (index & index' & Hrb & Hrun & Hra).
  exists ds, index, index'. split; [by exists index0, index1, index2|].
  split; [done|]. by exists index4, index5.
Qed.

End course.

(** ** Documents without a default text *)

Section bare.
Variable normalize_text : string → option bool → string.
Variable case_insensitive : bool.

Lemma seed_key_empty : seed_key case_insensitive "" = "".
Proof. by destruct case_insensitive. Qed.

Lemma bare_seed text_contents index :
  (∀ text, text ∈ text_contents →
           normalize_text text (Some case_insensitive) = "") →
  bare index → bare (seed normalize_text case_insensitive text_contents index).
Proof.
  unfold seed. revert index.
  induction text_contents as [|text text_contents IH]; intros index Hempty Hbare;
    [done|].
  rewrite fmap_cons. cbn [foldl]. apply IH.
  { intros ? ?. apply Hempty. by apply list_elem_of_further. }
  rewrite Hempty by apply list_elem_of_here. rewrite seed_key_empty.
  unfold od_setdefault. destruct (od_contains "" index); [done|].
  intros k entry. rewrite od_get_set.
  destruct (decide ("" = k)) as [<-|]; [by intros [= <-]|apply Hbare].
Qed.

Lemma bare_store index system_lang english_text value :
  bare index → store index system_lang english_text value = index.
Proof.
  intros Hbare. unfold store.
  destruct (truthy english_text) as [text|] eqn:Etext; [|done].
  destruct (od_get (store_key_of index text) index) as [entry|] eqn:Eget; [|done].
  apply Hbare in Eget as [Hkey _]. unfold store_key_of in Hkey.
  assert (text = "") as ->.
  { destruct (od_contains text index); [done|by apply lower_not_empty]. }
  by destruct english_text as [[|c s]|].
Qed.

Lemma bare_collect_default st text_elem st' :
  (is_default text_elem →
   ∀ text, text ∈ text_contents_of text_elem →
           normalize_text text (Some case_insensitive) = "") →
  collect_default normalize_text case_insensitive st text_elem = Return st' →
  bare st.1 → bare st'.1.
Proof.
  intros Hempty Hret Hbare. destruct st as [index default_sequence].
  destruct (decide (is_default text_elem)) as [Hd|Hd].
  - specialize (Hempty Hd). unfold text_contents_of in Hempty.
    destruct (tspans text_elem) as [|tspan ts] eqn:Ets.
    + rewrite collect_default_plain in Hret by done. injection Hret as <-.
      by apply bare_seed.
    + rewrite collect_default_tspans in Hret by (by rewrite ?Ets).
      unfold od_getitem in Hret.
      destruct (od_get default_tspans_by_id index) as [by_id|] eqn:Eget; [|done].
      by apply Hbare in Eget as [? _].
  - rewrite collect_default_skip in Hret by done. by injection Hret as <-.
Qed.

Lemma bare_collect_translated default_sequence index text_elem index' :
  collect_translated normalize_text default_sequence index text_elem
    = Return index' →
  bare index → bare index'.
Proof.
  unfold collect_translated.
  destruct (truthy (systemLanguage text_elem)) as [system_lang|];
    [|by intros [= <-]].
  destruct (match tspans text_elem with
            | [] => (_, _)
            | _ :: _ => _
            end) as [tspans_to_id text_contents].
  intros Hloop Hbare.
  refine (for_each_inv bare _ _ _ _ _ Hbare Hloop).
  intros s [idx text] s' _ Hs (english_text & _ & ->)%translated_run_Return.
  by rewrite bare_store.
Qed.

Lemma bare_switches switches index index' :
  no_default_text normalize_text case_insensitive switches →
  for_each (process_switch normalize_text case_insensitive) index switches
    = Return index' →
  bare index → bare index'.
Proof.
  intros Hno Hloop Hbare.
  refine (for_each_inv bare _ _ _ _ _ Hbare Hloop).
  intros s text_elements s' Hin Hs
    (index1 & default_sequence & Hdef & Htrans)%process_switch_Return.
  assert (bare index1) as Hbare1.
  { refine (for_each_inv (λ st, bare st.1) _ _ (s, [])
              (index1, default_sequence) _ Hs Hdef).
    intros st text_elem st' Hin' Hst Hstep.
    eapply bare_collect_default; [|done..].
    intros Hd text Htext. by eapply Hno. }
  refine (for_each_inv bare _ _ _ _ _ Hbare1 Htrans).
  intros ? ? ? _ ? ?. by eapply bare_collect_translated.
Qed.

Lemma bare_NoDup (index : Index) :
  bare index → NoDup (od_keys index) → index = [] ∨ index = [("", ∅)].
Proof.
  intros Hbare Hnodup. destruct index as [|[k entry] index]; [by left|right].
  destruct (Hbare k entry) as [-> ->].
  { simpl. by destruct (decide (k = k)). }
  destruct index as [|[k' entry'] index]; [done|].
  destruct (Hbare k' entry') as [-> _]; [|by apply NoDup_cons in Hnodup as
    [[]%not_elem_of_cons _]].
  simpl. destruct (decide (k' = "")) as [->|]; [|by destruct (decide (k' = k'))].
  by apply NoDup_cons in Hnodup as [[]%not_elem_of_cons _].
Qed.
End bare.

(** C4, as the code has it.  When no default text of the document is left
    once normalized, a result that [extract] returns has a title index, and
    it is empty; its phrase index is missing exactly when the document has
    no default text element, and otherwise holds the empty key, with an
    empty entry, and nothing else.  Whatever the default texts, the phrase
    index is missing exactly when there is no default text element, and the
    title index is then empty.  A document without tspans does return. *)
Theorem C4_title_empty_without_default_text normalize_text switches
    case_insensitive :
  (∀ translations,
     extract_tree normalize_text switches case_insensitive = Return translations →
     (new translations = None ↔ no_default_element switches) ∧
     (new translations = None → title translations = ∅) ∧
     (no_default_text normalize_text case_insensitive switches →
      title translations = ∅ ∧
      (new translations = None ∨ new translations = Some [("", ∅)]))) ∧
  (plain switches →
   ∃ translations,
     extract_tree normalize_text switches case_insensitive = Return translations).
Proof.
  split; [|apply extract_tree_plain_returns].
  intros translations Hret.
  assert (new translations = None ↔ ∀ k, k ∉ phrase_keys translations) as Hnone.
  { destruct (extract_tree_Return _ _ _ _ Hret) as (index & _ & Hnew & _).
    unfold phrase_keys. rewrite Hnew. destruct index as [|[k v] index].
    - split; [|done]. intros _ k. apply not_elem_of_nil.
    - split; [done|]. intros Hk. destruct (Hk k). apply list_elem_of_here. }
  split; [|split].
  - rewrite Hnone. split.
    + intros Hk switch text_elem ? ? ?.
      destruct (text_contents_of_inhabited text_elem) as [text ?].
      eapply Hk, (extract_tree_keys _ _ _ _ _ Hret).
      by exists switch, text_elem, text.
    + intros Hno k
        (switch & text_elem & ? & ? & ? & ? & _)%(extract_tree_keys _ _ _ _ _ Hret).
      by eapply Hno.
  - destruct (extract_tree_Return _ _ _ _ Hret) as (index & _ & Hnew & ->).
    rewrite Hnew. by destruct index.
  - intros Hno.
    destruct (extract_tree_phrase_index _ _ _ _ Hret) as (Hloop & Hnodup & ->).
    assert (bare (phrase_index translations)) as Hbare.
    { eapply bare_switches; [done..|]. by intros k entry. }
    destruct (extract_tree_Return _ _ _ _ Hret) as (index & Hloop' & Hnew & _).
    rewrite Hloop in Hloop'. injection Hloop' as <-.
    rewrite Hnew.
    by destruct (bare_NoDup _ Hbare Hnodup) as [-> | ->]; split; auto.
Qed.

Lemma C4_title_empty_without_default_text_witness :
  (title {| new := Some [("", ∅)]; title := ∅ |} = ∅ ∧
   (new {| new := Some [("", ∅)]; title := ∅ |} = None ∨
    new {| new := Some [("", ∅)]; title := ∅ |} = Some [("", ∅)])) ∧
  ∃ translations,
    extract_tree spec_normalize_text doc_empty_default_translated true
    = Return translations.
Proof.
  split.
  - refine (proj2 (proj2 (proj1 (C4_title_empty_without_default_text
                                   spec_normalize_text
                                   doc_empty_default_translated true) _ _)) _).
    + reflexivity.
    + intros switch text_elem text ->%list_elem_of_singleton
        [-> | ->%list_elem_of_singleton]%elem_of_cons Hd; [|done].
      by intros ->%list_elem_of_singleton.
  - refine (proj2 (C4_title_empty_without_default_text spec_normalize_text
                     doc_empty_default_translated true) _).
    intros switch text_elem ->%list_elem_of_singleton
      [-> | ->%list_elem_of_singleton]%elem_of_cons; reflexivity.
Defined.

(** C4 as stated fails: the only default text of this document is empty,
    and the result has a phrase index. *)
Lemma C4_index_present_without_default_text :
  extract spec_normalize_text (a_file doc_empty_default_translated) true
    = Return (Some {| new := Some [("", ∅)]; title := ∅ |}).
Proof. by vm_compute. Qed.

(** ** The positional fallback aborts *)

(** C7 (the code departs from it).  On the document of the positional
    example, with the default run "Hello" as a tspan without identifier and
    the German text "Hallo", [extract] raises [KeyError] at line 64,
    whatever the normalizer and the mode; and a German tspan with an
    identifier that no default sub-run has does not fall back to the
    position either: [extract] raises [KeyError] at line 121. *)
Theorem C7_positional_fallback_aborts normalize_text case_insensitive :
  extract normalize_text (a_file doc_default_run_tspan) case_insensitive
    = Raise (KeyError "default_tspans_by_id") ∧
  extract spec_normalize_text (a_file doc_unresolved_id) case_insensitive
    = Raise (KeyError "default_tspans_by_id").
Proof.
  split.
  - unfold extract, a_file, doc_default_run_tspan. cbn [exists_ parse negb].
    by rewrite extract_tree_raises_at_first.
  - by destruct case_insensitive; vm_compute.
Qed.

(** Where the default text element has no tspan and the German run no
    identifier, the position does resolve the run, in either mode. *)
Example positional_fallback_of_plain_default case_insensitive switches :
  switches = doc_hello_hallo ∨ switches = doc_hello_hallo_tspan →
  extract spec_normalize_text (a_file switches) case_insensitive
  = Return (Some {| new := Some [(seed_key case_insensitive "Hello",
                                  {["de" := "Hallo"]})];
                    title := ∅ |}).
Proof. by destruct case_insensitive; intros [-> | ->]; vm_compute. Qed.

(** ** One identifier map for all the switches *)

Lemma dict_of_snoc l k v : dict_of (l ++ [(k, v)]) = <[k := v]> (dict_of l).
Proof. unfold dict_of. by rewrite foldl_app. Qed.

(** The comprehension of lines 59-63 keeps, for an identifier, the text of
    the last tspan that has it. *)
Lemma tspans_by_id_of_last ts id :
  tspans_by_id_of ts !! id = last_text_with_id ts id.
Proof.
  unfold tspans_by_id_of, last_text_with_id.
  induction ts as [|tspan ts IH] using rev_ind; [done|].
  rewrite omap_app, filter_app. cbn [omap list_omap].
  destruct (truthy (tspan_text tspan)) as [text|] eqn:Etext;
    [destruct (truthy (tspan_id tspan)) as [id'|] eqn:Eid|].
  - rewrite dict_of_snoc. destruct (decide (id' = id)) as [->|Hne].
    + rewrite lookup_insert_eq, filter_cons_True, filter_nil, last_snoc.
      * cbn [fmap option_fmap option_map]. unfold content_of. by rewrite Etext.
      * unfold is_truthy. by rewrite Etext.
    + rewrite lookup_insert_ne by done.
      rewrite filter_cons_False, filter_nil, app_nil_r; [done|].
      intros [_ ?]. congruence.
  - rewrite filter_cons_False, filter_nil, !app_nil_r; [done|].
    intros [_ ?]. congruence.
  - rewrite filter_cons_False, filter_nil, !app_nil_r; [done|].
    unfold is_truthy. rewrite Etext. by intros [].
Qed.

Section identifier_map.
Variable normalize_text : string → option bool → string.
Variable case_insensitive : bool.

Lemma od_get_seed_old text_contents (index : Index) k entry :
  od_get k index = Some entry →
  od_get k (seed normalize_text case_insensitive text_contents index)
  = Some entry.
Proof.
  unfold seed. revert index.
  induction text_contents as [|text text_contents IH]; intros index Hget; [done|].
  rewrite fmap_cons. cbn [foldl]. apply IH. by apply od_get_setdefault_old.
Qed.

(** Line 64: the identifiers of a default text element go into the one map,
    over what it held for them. *)
Lemma collect_default_merges index default_sequence text_elem index'
    default_sequence' :
  collect_default normalize_text case_insensitive (index, default_sequence)
    text_elem = Return (index', default_sequence') →
  is_default text_elem → tspans text_elem ≠ [] →
  ∃ by_id by_id',
    od_get default_tspans_by_id index = Some by_id ∧
    od_get default_tspans_by_id index' = Some by_id' ∧
    ∀ id, by_id' !! id
          = match last_text_with_id (tspans text_elem) id with
            | Some text => Some text
            | None => by_id !! id
            end.
Proof.
  intros Hret Hd Hts. rewrite collect_default_tspans in Hret by done.
  unfold od_getitem in Hret.
  destruct (od_get default_tspans_by_id index) as [by_id|] eqn:Eget; [|done].
  injection Hret as <- _. eexists _, _. split; [done|]. split.
  { apply od_get_seed_old, od_get_set_eq. }
  intros id. unfold dict_update. rewrite <-tspans_by_id_of_last.
  destruct (tspans_by_id_of (tspans text_elem) !! id) as [text|] eqn:Enew.
  - by apply lookup_union_Some_l.
  - by apply lookup_union_r.
Qed.

Lemma reaches_run_extends before group_before text_elem group_after
    system_lang runs_before default_sequence index index0 :
  for_each (process_switch normalize_text case_insensitive) [] before
    = Return index0 →
  reaches_run normalize_text case_insensitive before group_before text_elem
    group_after system_lang runs_before default_sequence index →
  extends index0 index.
Proof.
  intros Hbefore (index0' & index1 & index2 & Hbefore' & Hdef & Hgb & Hrb).
  rewrite Hbefore in Hbefore'. injection Hbefore' as <-.
  eapply extends_trans;
    [exact (collect_default_pass_extends _ _ _ _ _ Hdef)|].
  eapply extends_trans; [by eapply collect_translated_pass_extends|].
  by eapply translated_runs_extends.
Qed.

Lemma translated_run_with_base tspans_to_id default_sequence system_lang
    index idx text base by_id :
  truthy (base_id_of tspans_to_id text) = Some base →
  od_get default_tspans_by_id index = Some by_id →
  translated_run normalize_text tspans_to_id default_sequence system_lang
    index (idx, text)
  = Return (store index system_lang
              (english_by_position default_sequence idx
                 (py_or (by_id !! base) (by_id !! lower base)))
              (normalize_text text None)).
Proof.
  intros Hbase Hget. unfold translated_run, english_by_id, od_getitem.
  by rewrite Hbase, Hget.
Qed.
End identifier_map.

(** C8, as the code has it.  The identifier map is one map for the whole
    document.  It is there only in a document where a default text is the
    phrase [default_tspans_by_id]; an extraction that gets past default
    sub-runs is an extraction of such a document.  After the switches
    [before], the map holds every identifier of their default sub-runs; and
    it is this map, with these identifiers, that resolves the runs with an
    identifier of the text elements of the switch that follows.  A default
    text element merges its identifiers into the map: an identifier gets the
    text of the last of its tspans that has it, over what the map held, and
    the other identifiers keep theirs. *)
Theorem C8_one_identifier_map_for_all_switches normalize_text case_insensitive :
  (∀ before index id,
     for_each (process_switch normalize_text case_insensitive) [] before
       = Return index →
     collects_id before id →
     seeded_by normalize_text case_insensitive before default_tspans_by_id ∧
     holds_id index id) ∧
  (∀ before group_before text_elem group_after after system_lang
     runs_before idx text runs_after base id translations,
     extract_tree normalize_text
       (before ++ (group_before ++ text_elem :: group_after) :: after)
       case_insensitive = Return translations →
     collects_id before id →
     truthy (systemLanguage text_elem) = Some system_lang →
     enumerate (text_contents_of text_elem)
       = runs_before ++ (idx, text) :: runs_after →
     truthy (base_id_of (tspans_to_id_for text_elem) text) = Some base →
     ∃ default_sequence index by_id,
       reaches_run normalize_text case_insensitive before group_before
         text_elem group_after system_lang runs_before default_sequence index ∧
       od_get default_tspans_by_id index = Some by_id ∧
       is_Some (by_id !! id) ∧
       finishes_from normalize_text case_insensitive text_elem group_after
         after system_lang runs_after default_sequence
         (store index system_lang
            (english_by_position default_sequence idx
               (py_or (by_id !! base) (by_id !! lower base)))
            (normalize_text text None))
         (phrase_index translations)) ∧
  (∀ index default_sequence text_elem index' default_sequence',
     collect_default normalize_text case_insensitive (index, default_sequence)
       text_elem = Return (index', default_sequence') →
     is_default text_elem → tspans text_elem ≠ [] →
     ∃ by_id by_id',
       od_get default_tspans_by_id index = Some by_id ∧
       od_get default_tspans_by_id index' = Some by_id' ∧
       ∀ id, by_id' !! id
             = match last_text_with_id (tspans text_elem) id with
               | Some text => Some text
               | None => by_id !! id
               end).
Proof.
  assert (∀ before index id,
     for_each (process_switch normalize_text case_insensitive) [] before
       = Return index →
     collects_id before id →
     seeded_by normalize_text case_insensitive before default_tspans_by_id ∧
     holds_id index id) as Hmap.
  { intros before index id Hbefore Hid.
    assert (holds_id index id) as Hholds by by eapply switches_holds_id.
    split; [|done]. destruct Hholds as (by_id & Hget & _).
    assert (default_tspans_by_id ∈ od_keys index) as Hkey.
    { apply od_get_Some_keys. by rewrite Hget. }
    apply (switches_keys _ _ _ _ _ _ Hbefore) in Hkey as [[]%elem_of_nil|]; done. }
  split; [done|]. split; [|apply collect_default_merges].
  intros before group_before text_elem group_after after system_lang
    runs_before idx text runs_after base id translations Hret Hid Hlang Hruns
    Hbase.
  destruct (extract_tree_at_run _ _ _ _ _ _ _ _ _ _ _ _ Hret Hlang Hruns)
    as (default_sequence & index & index' & Hreach & Hrun & Hfinish).
  pose proof Hreach as (index0 & _ & _ & Hbefore & _).
  destruct (Hmap _ _ _ Hbefore Hid) as [_ Hholds].
  apply (extends_holds_id _ index) in Hholds as (by_id & Hget & Hsome);
    [|by eapply reaches_run_extends].
  rewrite (translated_run_with_base _ _ _ _ _ _ _ _ by_id Hbase Hget) in Hrun.
  injection Hrun as <-. by exists default_sequence, index, by_id.
Qed.

Lemma C8_one_identifier_map_for_all_switches_witness :
  (seeded_by spec_normalize_text true (take 2 doc_shared_ids)
     default_tspans_by_id ∧
   holds_id [("default_tspans_by_id", {["a" := "Hello"]}); ("hello", ∅)] "a") ∧
  (∃ default_sequence index by_id,
     reaches_run spec_normalize_text true (take 2 doc_shared_ids)
       [a_text None (Some "World")] text_a_fr [] "fr" [] default_sequence index ∧
     od_get default_tspans_by_id index = Some by_id ∧
     is_Some (by_id !! "a") ∧
     finishes_from spec_normalize_text true text_a_fr [] [] "fr" []
       default_sequence
       (store index "fr"
          (english_by_position default_sequence 0
             (py_or (by_id !! "a") (by_id !! lower "a")))
          (spec_normalize_text "Bonjour" None))
       (phrase_index
          {| new := Some [("default_tspans_by_id", {["a" := "Hello"]});
                          ("hello", {["fr" := "Bonjour"]});
                          ("world", ∅)];
             title := ∅ |})) ∧
  (∃ by_id by_id',
     od_get default_tspans_by_id index_a_b = Some by_id ∧
     od_get default_tspans_by_id index_a_b_merged = Some by_id' ∧
     ∀ id, by_id' !! id
           = match last_text_with_id (tspans text_twice_a) id with
             | Some text => Some text
             | None => by_id !! id
             end).
Proof.
  assert (collects_id (take 2 doc_shared_ids) "a") as Hid.
  { exists [a_text_of None [a_tspan (Some "a") (Some "Hello")]],
      (a_text_of None [a_tspan (Some "a") (Some "Hello")]),
      (a_tspan (Some "a") (Some "Hello")), "Hello".
    repeat split.
    - apply list_elem_of_further, list_elem_of_here.
    - apply list_elem_of_here.
    - apply list_elem_of_here. }
  split; [|split].
  - refine (proj1 (C8_one_identifier_map_for_all_switches spec_normalize_text
                     true) (take 2 doc_shared_ids) _ "a" _ Hid).
    reflexivity.
  - refine (proj1 (proj2 (C8_one_identifier_map_for_all_switches
                            spec_normalize_text true))
              (take 2 doc_shared_ids) [a_text None (Some "World")] text_a_fr
              [] [] "fr" [] 0 "Bonjour" [] "a" "a" _ _ Hid _ _ _).
    + reflexivity.
    + reflexivity.
    + reflexivity.
    + reflexivity.
  - refine (proj2 (proj2 (C8_one_identifier_map_for_all_switches
                            spec_normalize_text true))
              index_a_b [] text_twice_a index_a_b_merged
              [mk_run spec_normalize_text (Some "a") "Hello" true;
               mk_run spec_normalize_text (Some "a") "World" true] _ _ _).
    + reflexivity.
    + reflexivity.
    + done.
Defined.

(** C8 as stated fails: the identifier [a] of the second switch resolves the
    French sub-run [a-fr] of the third to "Hello", where the third switch
    alone would have resolved it by position to "World"; and the identifier
    map is an entry of the phrase index that is returned. *)
Lemma C8_identifier_crosses_groups :
  extract spec_normalize_text (a_file doc_shared_ids) true
    = Return (Some {| new := Some [("default_tspans_by_id", {["a" := "Hello"]});
                                   ("hello", {["fr" := "Bonjour"]});
                                   ("world", ∅)];
                      title := ∅ |}) ∧
  extract spec_normalize_text (a_file doc_separate_ids) true
    = Return (Some {| new := Some [("default_tspans_by_id", ∅);
                                   ("world", {["fr" := "Bonjour"]})];
                      title := ∅ |}).
Proof. by vm_compute. Qed.

(** ** Case in the keys and in the values *)

(** Lines 129-134, by the keys of the index. *)
Lemma store_cases index system_lang english value :
  english ≠ "" →
  (english ∈ od_keys index →
   ∃ entry, od_get english index = Some entry ∧
     store index system_lang (Some english) value
     = od_set english (<[system_lang := value]> entry) index) ∧
  (english ∉ od_keys index → lower english ∈ od_keys index →
   ∃ entry, od_get (lower english) index = Some entry ∧
     store index system_lang (Some english) value
     = od_set (lower english) (<[system_lang := value]> entry) index) ∧
  (english ∉ od_keys index → lower english ∉ od_keys index →
   store index system_lang (Some english) value = index).
Proof.
  intros Hne. unfold store. rewrite truthy_Some_ne by done.
  cbv zeta. unfold store_key_of. repeat split.
  - intros Hin. rewrite (proj2 (od_contains_keys _ _) Hin).
    apply od_get_Some_keys in Hin as [entry Hget]. exists entry.
    by rewrite Hget.
  - intros Hnot Hin. rewrite (proj2 (od_contains_false _ _) Hnot).
    apply od_get_Some_keys in Hin as [entry Hget]. exists entry.
    by rewrite Hget.
  - intros Hnot Hnot'. rewrite (proj2 (od_contains_false _ _) Hnot).
    apply od_get_None_keys in Hnot'. by rewrite Hnot'.
Qed.

Lemma store_nothing index system_lang english_text value :
  truthy english_text = None →
  store index system_lang english_text value = index.
Proof. intros Hnone. unfold store. by rewrite Hnone. Qed.

(** The text contents are trimmed already. *)
Lemma text_contents_stripped text_elem text :
  text ∈ text_contents_of text_elem → strip text = text.
Proof.
  unfold text_contents_of, tspan_contents, own_contents.
  destruct (tspans text_elem) as [|tspan ts].
  - destruct (truthy (elem_text text_elem));
      intros ->%list_elem_of_singleton; [apply strip_idemp|apply strip_empty].
  - intros (tspan' & -> & _)%list_elem_of_fmap.
    destruct (truthy (tspan_text tspan')); [apply strip_idemp|apply strip_empty].
Qed.

Lemma lstrip_chars_blank l : ∃ spaces, l = spaces ++ lstrip_chars l ∧ blank spaces.
Proof.
  unfold blank.
  induction l as [|c l (spaces & IH & Hblank)];
    [exists []; split; [done|constructor]|].
  simpl. destruct (isspace_char c) eqn:E.
  - exists (c :: spaces). split; [by rewrite <-app_comm_cons, <-IH|].
    by constructor.
  - exists []. split; [done|constructor].
Qed.

(** [s.strip()] is [s] without the white space at its two ends, character
    for character. *)
Lemma strip_between text :
  ∃ l1 l2, chars text = l1 ++ chars (strip text) ++ l2 ∧ blank l1 ∧ blank l2.
Proof.
  unfold strip. rewrite chars_str.
  destruct (lstrip_chars_blank (chars text)) as (l1 & E1 & Hblank1).
  destruct (lstrip_chars_blank (rev (lstrip_chars (chars text))))
    as (l2 & E2 & Hblank2).
  exists l1, (rev l2). split; [|split; [done|by apply Forall_rev]].
  rewrite <-rev_app_distr, <-E2, rev_involutive. done.
Qed.

(** C9, as the code has it.  With the mode off, the keys of the phrase
    index are the normalized default texts as they are, without
    lower-casing; with the normalizer of the design document, they are the
    trimmed default texts themselves.  In either mode, every run of a text
    element with a language whose resolution gives a phrase that is not
    empty is stored under that phrase when it is a key of the index; when it
    is not, under its lower-cased form when that is a key; and when neither
    is a key, or the resolution gives nothing, the index is left as it is.
    The value stored is the text of the run normalized by the call that
    leaves the mode out; the normalizer of the design document then only
    takes the white space off its two ends, and keeps every other character
    as it is. *)
Theorem C9_keys_verbatim_and_writes_fall_back normalize_text :
  (∀ switches translations,
     extract_tree normalize_text switches false = Return translations →
     ∀ k, k ∈ phrase_keys translations ↔
          ∃ switch text_elem text,
            switch ∈ switches ∧ text_elem ∈ switch ∧ is_default text_elem ∧
            text ∈ text_contents_of text_elem ∧
            k = normalize_text text (Some false)) ∧
  (∀ switches translations,
     extract_tree spec_normalize_text switches false = Return translations →
     ∀ k, k ∈ phrase_keys translations ↔
          ∃ switch text_elem,
            switch ∈ switches ∧ text_elem ∈ switch ∧ is_default text_elem ∧
            k ∈ text_contents_of text_elem) ∧
  (∀ case_insensitive before group_before text_elem group_after after
     system_lang runs_before idx text runs_after translations,
     extract_tree normalize_text
       (before ++ (group_before ++ text_elem :: group_after) :: after)
       case_insensitive = Return translations →
     truthy (systemLanguage text_elem) = Some system_lang →
     enumerate (text_contents_of text_elem)
       = runs_before ++ (idx, text) :: runs_after →
     ∃ default_sequence index index' by_identifier,
       reaches_run normalize_text case_insensitive before group_before
         text_elem group_after system_lang runs_before default_sequence index ∧
       english_by_id index (base_id_of (tspans_to_id_for text_elem) text)
         = Return by_identifier ∧
       finishes_from normalize_text case_insensitive text_elem group_after
         after system_lang runs_after default_sequence index'
         (phrase_index translations) ∧
       (truthy (english_by_position default_sequence idx by_identifier) = None →
        index' = index) ∧
       ∀ english,
         truthy (english_by_position default_sequence idx by_identifier)
           = Some english →
         (english ∈ od_keys index →
          ∃ entry, od_get english index = Some entry ∧
            index' = od_set english
                       (<[system_lang := normalize_text text None]> entry)
                       index) ∧
         (english ∉ od_keys index → lower english ∈ od_keys index →
          ∃ entry, od_get (lower english) index = Some entry ∧
            index' = od_set (lower english)
                       (<[system_lang := normalize_text text None]> entry)
                       index) ∧
         (english ∉ od_keys index → lower english ∉ od_keys index →
          index' = index)) ∧
  (∀ text,
     ∃ l1 l2,
       chars text = l1 ++ chars (spec_normalize_text text None) ++ l2 ∧
       blank l1 ∧ blank l2).
Proof.
  split; [|split; [|split]].
  - intros switches translations Hret k.
    apply (extract_tree_keys _ _ _ _ _ Hret).
  - intros switches translations Hret k.
    rewrite (extract_tree_keys _ _ _ _ _ Hret). unfold seeded_by. split.
    + intros (switch & text_elem & text & ? & ? & ? & Hin & ->).
      exists switch, text_elem. repeat split; try done.
      unfold seed_key, spec_normalize_text. simpl.
      by rewrite (text_contents_stripped _ _ Hin).
    + intros (switch & text_elem & ? & ? & ? & Hin).
      exists switch, text_elem, k. repeat split; try done.
      unfold seed_key, spec_normalize_text. simpl.
      by rewrite (text_contents_stripped _ _ Hin).
  - intros case_insensitive before group_before text_elem group_after after
      system_lang runs_before idx text runs_after translations Hret Hlang Hruns.
    destruct (extract_tree_at_run _ _ _ _ _ _ _ _ _ _ _ _ Hret Hlang Hruns)
      as (default_sequence & index & index' & Hreach & Hrun & Hfinish).
    apply translated_run_Return in Hrun as (by_identifier & Hid & ->).
    eexists default_sequence, index, _, by_identifier.
    split; [done|]. split; [done|]. split; [done|]. split.
    + apply store_nothing.
    + intros english Henglish.
      destruct (english_by_position default_sequence idx by_identifier)
        as [[|c s]|]; simplify_eq/=.
      by apply store_cases.
  - intros text. apply strip_between.
Qed.

Lemma C9_keys_verbatim_and_writes_fall_back_witness :
  (∀ k, k ∈ phrase_keys result_folded_fallback ↔
        ∃ switch text_elem text,
          switch ∈ doc_folded_fallback ∧ text_elem ∈ switch ∧
          is_default text_elem ∧ text ∈ text_contents_of text_elem ∧
          k = spec_normalize_text text (Some false)) ∧
  (∀ k, k ∈ phrase_keys result_folded_fallback ↔
        ∃ switch text_elem,
          switch ∈ doc_folded_fallback ∧ text_elem ∈ switch ∧
          is_default text_elem ∧ k ∈ text_contents_of text_elem) ∧
  (∃ default_sequence index index' by_identifier,
     reaches_run spec_normalize_text false (take 2 doc_folded_fallback)
       [a_text None (Some "World")] text_x_fr [] "fr" [] default_sequence index ∧
     english_by_id index (base_id_of (tspans_to_id_for text_x_fr) "Bonjour")
       = Return by_identifier ∧
     finishes_from spec_normalize_text false text_x_fr [] [] "fr" []
       default_sequence index' (phrase_index result_folded_fallback) ∧
     (truthy (english_by_position default_sequence 0 by_identifier) = None →
      index' = index) ∧
     ∀ english,
       truthy (english_by_position default_sequence 0 by_identifier)
         = Some english →
       (english ∈ od_keys index →
        ∃ entry, od_get english index = Some entry ∧
          index' = od_set english
                     (<["fr" := spec_normalize_text "Bonjour" None]> entry)
                     index) ∧
       (english ∉ od_keys index → lower english ∈ od_keys index →
        ∃ entry, od_get (lower english) index = Some entry ∧
          index' = od_set (lower english)
                     (<["fr" := spec_normalize_text "Bonjour" None]> entry)
                     index) ∧
       (english ∉ od_keys index → lower english ∉ od_keys index →
        index' = index)).
Proof.
  split; [|split].
  - refine (proj1 (C9_keys_verbatim_and_writes_fall_back spec_normalize_text)
              doc_folded_fallback result_folded_fallback _).
    reflexivity.
  - refine (proj1 (proj2 (C9_keys_verbatim_and_writes_fall_back
                            spec_normalize_text))
              doc_folded_fallback result_folded_fallback _).
    reflexivity.
  - refine (proj1 (proj2 (proj2 (C9_keys_verbatim_and_writes_fall_back
                                   spec_normalize_text)))
              false (take 2 doc_folded_fallback) [a_text None (Some "World")]
              text_x_fr [] [] "fr" [] 0 "Bonjour" [] result_folded_fallback
              _ _ _).
    + reflexivity.
    + reflexivity.
    + reflexivity.
Defined.

(** C9 as stated fails: in the case-sensitive mode, the French sub-run of
    the third switch resolves through the identifier map to "HELLO", which
    is no key of the index, and is stored under "hello".  The second
    equation is the state in which the translated text elements of the third
    switch are processed. *)
Lemma C9_folded_fallback_in_sensitive_mode :
  extract spec_normalize_text (a_file doc_folded_fallback) false
    = Return (Some {| new := Some [("default_tspans_by_id", {["x" := "HELLO"]});
                                   ("hello", {["fr" := "Bonjour"]});
                                   ("World", ∅)];
                      title := ∅ |}) ∧
  (index ← for_each (process_switch spec_normalize_text false) []
             (take 2 doc_folded_fallback);
   for_each (collect_default spec_normalize_text false) (index, [])
     (default [] (doc_folded_fallback !! 2)))
    = Return (index_before_fallback,
              [mk_run spec_normalize_text None "World" false]) ∧
  english_by_id index_before_fallback
    (base_id_of (tspans_to_id_of [a_tspan (Some "x") (Some "Bonjour")]) "Bonjour")
    = Return (Some "HELLO") ∧
  od_contains "HELLO" index_before_fallback = false ∧
  store_key_of index_before_fallback "HELLO" = "hello".
Proof. by vm_compute. Qed.

(** ** Empty sub-runs of a translated text element *)




Section keys_at_run.
Variable case_insensitive : bool.



End keys_at_run.



